(** * Zoic cache: configuration parsing, the [put] middleware and the
      doubly linked list of [zoicCache.ts]

    A shallow embedding of [src/src/zoicCache.ts].

    - JavaScript numbers are modelled by [number]: [NaN], the two infinities
      and finite values as exact rationals.  Arithmetic on finite values is
      exact (no rounding to binary64) and the two zeros are not told apart;
      on the integers below 2^53 that the parser meets this is what the
      engine computes.
    - JavaScript strings are [string]s, one [ascii] per UTF-16 code unit, so
      the model covers the strings whose code units are below 256.
    - An exception is a [Throw] result; nothing is deferred.
    - Objects of the linked list live in a heap ([gmap] from references to
      nodes); [null] is [None]. *)

From Stdlib Require Import String Ascii List ZArith QArith Lia Bool.
From stdpp Require Import gmap.
Import ListNotations.

Local Open Scope Z_scope.

(** ** Exceptions *)

Inductive error :=
| TypeError (msg : string).

Inductive result (A : Type) :=
| Ok (a : A)
| Throw (e : error).
Arguments Ok {A} a.
Arguments Throw {A} e.

Definition rbind {A B} (r : result A) (k : A -> result B) : result B :=
  match r with
  | Ok a => k a
  | Throw e => Throw e
  end.

Notation "'let*' x ':=' r 'in' k" := (rbind r (fun x => k))
  (at level 10, x name, r at level 100, k at level 200).

(** ** Numbers *)

Module Num.

Inductive number :=
| NaN
| PInf
| NInf
| Fin (q : Q).

Definition of_Z (z : Z) : number := Fin (inject_Z z).

Definition is_zero (q : Q) : bool := Qnum q =? 0.
Definition is_pos (q : Q) : bool := 0 <? Qnum q.

(** [a + b] *)
Definition add (a b : number) : number :=
  match a, b with
  | NaN, _ | _, NaN => NaN
  | PInf, NInf | NInf, PInf => NaN
  | PInf, _ | _, PInf => PInf
  | NInf, _ | _, NInf => NInf
  | Fin x, Fin y => Fin (Qred (x + y))
  end.

Definition inf_of_sign (positive : bool) : number :=
  if positive then PInf else NInf.

Definition inf_times (positive : bool) (q : Q) : number :=
  if is_zero q then NaN else inf_of_sign (eqb positive (is_pos q)).

(** [a * b] *)
Definition mul (a b : number) : number :=
  match a, b with
  | NaN, _ | _, NaN => NaN
  | PInf, PInf | NInf, NInf => PInf
  | PInf, NInf | NInf, PInf => NInf
  | PInf, Fin q | Fin q, PInf => inf_times true q
  | NInf, Fin q | Fin q, NInf => inf_times false q
  | Fin x, Fin y => Fin (Qred (x * y))
  end.

(** [a > b]; every comparison with [NaN] is false. *)
Definition gt (a b : number) : bool :=
  match a, b with
  | NaN, _ | _, NaN => false
  | PInf, PInf => false
  | PInf, _ => true
  | _, PInf => false
  | NInf, _ => false
  | Fin _, NInf => true
  | Fin x, Fin y => negb (Qle_bool x y)
  end.

(** [a < b] *)
Definition lt (a b : number) : bool := gt b a.

(** [a === b] on numbers. *)
Definition strict_eq (a b : number) : bool :=
  match a, b with
  | PInf, PInf | NInf, NInf => true
  | Fin x, Fin y => Qeq_bool x y
  | _, _ => false
  end.

(** ToBoolean on a number: [0] and [NaN] are falsy. *)
Definition truthy (a : number) : bool :=
  match a with
  | NaN => false
  | PInf | NInf => true
  | Fin q => negb (is_zero q)
  end.

End Num.
Export Num.

(** ** Strings *)

Module Str.

Local Open Scope string_scope.

(** ToBoolean on a string: only the empty string is falsy. *)
Definition truthy (s : string) : bool :=
  match s with
  | EmptyString => false
  | String _ _ => true
  end.

(** White space and line terminators among the code units below 256:
    TAB, LF, VT, FF, CR, SP and NBSP. *)
Definition is_white (c : ascii) : bool :=
  let n := N_of_ascii c in
  ((n =? 9) || (n =? 10) || (n =? 11) || (n =? 12) || (n =? 13)
   || (n =? 32) || (n =? 160))%N.

Fixpoint trimStart (s : string) : string :=
  match s with
  | EmptyString => EmptyString
  | String c r => if is_white c then trimStart r else s
  end.

Fixpoint trimEnd (s : string) : string :=
  match s with
  | EmptyString => EmptyString
  | String c r =>
      match trimEnd r with
      | EmptyString => if is_white c then EmptyString else String c EmptyString
      | r' => String c r'
      end
  end.

(** [s.trim()] *)
Definition trim (s : string) : string := trimEnd (trimStart s).

(** [s.split(sep)] for a one-character separator; the empty string splits
    into one empty piece. *)
Fixpoint split (sep : ascii) (s : string) : list string :=
  match s with
  | EmptyString => [EmptyString]
  | String c r =>
      if Ascii.eqb c sep then EmptyString :: split sep r
      else match split sep r with
           | [] => [String c EmptyString]
           | x :: xs => String c x :: xs
           end
  end.

(** [s[s.length - 1]]: the last code unit, [undefined] on the empty string. *)
Fixpoint last_char (s : string) : option ascii :=
  match s with
  | EmptyString => None
  | String c EmptyString => Some c
  | String _ r => last_char r
  end.

(** [s.slice(0, -1)] *)
Fixpoint slice_0_m1 (s : string) : string :=
  match s with
  | EmptyString => EmptyString
  | String _ EmptyString => EmptyString
  | String c r => String c (slice_0_m1 r)
  end.

(** The value of a digit in the given radix (10 or 16). *)
Definition digit_value (radix : Z) (c : ascii) : option Z :=
  let n := Z.of_N (N_of_ascii c) in
  let v :=
    (if (48 <=? n) && (n <=? 57) then Some (n - 48)
     else if (97 <=? n) && (n <=? 102) then Some (n - 87)
     else if (65 <=? n) && (n <=? 70) then Some (n - 55)
     else None)%Z in
  match v with
  | Some d => if (d <? radix)%Z then Some d else None
  | None => None
  end.

(** The longest prefix of digits, read in the radix; [None] when the prefix
    is empty.  [acc] is the value of the digits read so far. *)
Fixpoint digits (radix : Z) (acc : option Z) (s : string) : option Z :=
  match s with
  | EmptyString => acc
  | String c r =>
      match digit_value radix c with
      | Some d =>
          digits radix (Some (radix * default 0 acc + d))%Z r
      | None => acc
      end
  end.

(** [parseInt(s)] with no radix argument: leading white space is skipped,
    a sign is read, a [0x] or [0X] prefix selects radix 16, and the longest
    prefix of digits is the value; [NaN] when there is no digit. *)
Definition parseInt (s : string) : number :=
  let s := trimStart s in
  let (sign, s) :=
    match s with
    | String "-" r => ((-1)%Z, r)
    | String "+" r => (1%Z, r)
    | _ => (1%Z, s)
    end in
  let (radix, s) :=
    match s with
    | String "0" (String "x" r) => (16%Z, r)
    | String "0" (String "X" r) => (16%Z, r)
    | _ => (10%Z, s)
    end in
  match digits radix None s with
  | None => NaN
  | Some m => of_Z (sign * m)%Z
  end.

End Str.

(** ** The cache facade [ZoicCache] *)

Module Zoic.

Local Open Scope string_scope.

(** [expire?: string | number] *)
Inductive expire_option :=
| ExpString (s : string)
| ExpNumber (n : number).

(** [interface options]; an absent field is [None]. *)
Record options := {
  opt_cache : option string;
  opt_expire : option expire_option;
  opt_respondOnHit : option bool
}.

(** [options?.f] *)
Definition opt_chain {A} (o : option options) (f : options -> option A) : option A :=
  match o with
  | Some r => f r
  | None => None
  end.

(** [v || d] on an optional boolean: [undefined] and [false] are falsy. *)
Definition or_else (v : option bool) (d : bool) : bool :=
  match v with
  | Some true => true
  | Some false | None => d
  end.

Definition msg_format : string :=
  "Cache expiration time must be string formatted as a numerical value followed by 'h', 'm', or 's', or a number representing time in seconds.".

Definition msg_range : string := "Cache expiration time out of range.".

(** The callback given to [reduce] in [#parseExpTime]. *)
Definition addUnit (arr : number) (el : string) : result number :=
  let last := Str.last_char el in
  let n := Str.parseInt (Str.slice_0_m1 el) in
  if decide (last = Some "h"%char) then Ok (add arr (mul n (of_Z 3600)))
  else if decide (last = Some "m"%char) then Ok (add arr (mul n (of_Z 60)))
  else if decide (last = Some "s"%char) then Ok (add arr n)
  else Throw (TypeError msg_format).

(** An element of a TTL string ends in one of the three unit letters. *)
Definition unit_suffix (el : string) : bool :=
  match Str.last_char el with
  | Some c => Ascii.eqb c "h" || Ascii.eqb c "m" || Ascii.eqb c "s"
  | None => false
  end.

(** [xs.reduce(f, init)] for a callback that may throw. *)
Fixpoint reduce (f : number -> string -> result number) (xs : list string)
    (acc : number) : result number :=
  match xs with
  | [] => Ok acc
  | el :: rest => let* acc' := f acc el in reduce f rest acc'
  end.

(** ToBoolean of the [expire] option. *)
Definition exp_truthy (e : option expire_option) : bool :=
  match e with
  | None => false
  | Some (ExpString s) => Str.truthy s
  | Some (ExpNumber n) => truthy n
  end.

(** [#parseExpTime] *)
Definition parseExpTime (numberString : option expire_option) : result number :=
  if negb (exp_truthy numberString) then Ok (of_Z 86400)
  else
    let* seconds :=
      match numberString with
      | Some (ExpString s) => reduce addUnit (Str.split "," (Str.trim s)) (of_Z 0)
      | Some (ExpNumber n) => Ok n
      | None => Ok (of_Z 86400) (* not reached: [undefined] is falsy *)
      end in
    if gt seconds (of_Z 86400) || lt seconds (of_Z 0)
    then Throw (TypeError msg_range)
    else Ok seconds.

(** The options of the example in the class comment, with
    [respondOnHit: false]. *)
Definition opts_false : option options :=
  Some {| opt_cache := Some "LFU"; opt_expire := Some (ExpString "2h, 5m, 3s");
          opt_respondOnHit := Some false |}.

(** The response body written by [put] on a failure. *)
Record report := {
  success : bool;
  message : string
}.

(** What [await this.cache.put(key, value)] gives: the number the promise
    resolves to, or the value it throws or rejects with (as the text that
    [${err}] prints). *)
Inductive put_outcome :=
| Resolved (putResponse : number)
| Rejected (err : string).

Section Facade.

(** The two eviction engines ([lru.ts], [lfu.ts]) are imported by
    [zoicCache.ts] and not part of it: their constructors and their [put]
    are taken as given.  [V] is the opaque payload. *)
Variables (V LRU LFU : Type).
Variable new_LRU : number -> LRU.
Variable new_LFU : number -> LFU.
Variable LRU_put : LRU -> string -> V -> put_outcome * LRU.
Variable LFU_put : LFU -> string -> V -> put_outcome * LFU.

(** [cache: LRU | LFU] *)
Inductive engine :=
| IsLRU (c : LRU)
| IsLFU (c : LFU).

Record ZoicCache := {
  cache : engine;
  expire : number;
  respondOnHit : bool
}.

(** [#initCacheType] *)
Definition initCacheType (expire : number) (cache : option string) : engine :=
  if decide (cache = Some "LFU") then IsLFU (new_LFU expire)
  else IsLRU (new_LRU expire).

(** [constructor] *)
Definition new_ZoicCache (opts : option options) : result ZoicCache :=
  let* expire := parseExpTime (opt_chain opts opt_expire) in
  let cache := initCacheType expire (opt_chain opts opt_cache) in
  let respondOnHit := or_else (opt_chain opts opt_respondOnHit) true in
  Ok {| cache := cache; expire := expire; respondOnHit := respondOnHit |}.

(** [this.cache.put(key, value)], dispatched on the engine. *)
Definition cache_put (c : engine) (key : string) (value : V) : put_outcome * engine :=
  match c with
  | IsLRU l => let (o, l') := LRU_put l key value in (o, IsLRU l')
  | IsLFU l => let (o, l') := LFU_put l key value in (o, IsLFU l')
  end.

(** [ctx.response.body]: whatever was there, or a failure report. *)
Inductive body :=
| Body (b : V)
| Report (r : report).

(** The parts of the oak [Context] that [put] reads and writes. *)
Record Context := {
  pathname : string;
  search : string;
  state_zoic : V;
  response_body : body
}.

Definition set_body (ctx : Context) (b : body) : Context :=
  {| pathname := pathname ctx; search := search ctx;
     state_zoic := state_zoic ctx; response_body := b |}.

(** How a call of the middleware [put] ends: it returned [next()], or it
    returned without calling [next].  What [next] does is not modelled. *)
Inductive ending :=
| CalledNext
| Returned.

(** [put] *)
Definition put (self : ZoicCache) (ctx : Context) : ending * Context * ZoicCache :=
  let value := state_zoic ctx in
  let key := pathname ctx ++ search ctx in
  let (outcome, c') := cache_put (cache self) key value in
  let self' := {| cache := c'; expire := expire self;
                  respondOnHit := respondOnHit self |} in
  match outcome with
  | Resolved putResponse =>
      if strict_eq putResponse (of_Z 0) then (CalledNext, ctx, self')
      else if strict_eq putResponse (of_Z (-1)) then
        (Returned,
         set_body ctx (Report {| success := false;
                                 message := "failed to add entry to cache" |}),
         self')
      else (Returned, ctx, self')
  | Rejected err =>
      (Returned,
       set_body ctx (Report {| success := false;
                               message := err ++ " ocurred when trying to add to the cache" |}),
       self')
  end.

End Facade.

End Zoic.

(** ** The ordered list [DoublyLinkedList] *)

Module DLL.

Local Open Scope string_scope.

(** References to [Node] objects. *)
Abbreviation ref := positive (only parsing).

Section List.

(** [value: any] *)
Variable V : Type.

(** [class Node] *)
Record Node := {
  next : option ref;
  prev : option ref;
  value : V;
  key : string
}.

Definition with_next (n : Node) (r : option ref) : Node :=
  {| next := r; prev := prev n; value := value n; key := key n |}.

Definition with_prev (n : Node) (r : option ref) : Node :=
  {| next := next n; prev := r; value := value n; key := key n |}.

(** A [DoublyLinkedList] object together with the store of the nodes
    allocated so far. *)
Record DoublyLinkedList := {
  nodes : gmap ref Node;
  head : option ref;
  tail : option ref
}.

(** Methods: state passing over the list and the store, with exceptions.
    A [Throw] does not keep the state reached so far. *)
Definition M (A : Type) : Type := DoublyLinkedList -> result (A * DoublyLinkedList).

Definition ret {A} (a : A) : M A := fun l => Ok (a, l).

Definition seq {A B} (c : M A) (k : A -> M B) : M B :=
  fun l => match c l with
           | Ok (a, l') => k a l'
           | Throw e => Throw e
           end.

Notation "'let!' x ':=' c 'in' k" := (seq c (fun x => k))
  (at level 10, x name, c at level 100, k at level 200).
Notation "c >> k" := (seq c (fun _ => k))
  (at level 63, right associativity).

Definition get_head : M (option ref) := fun l => Ok (head l, l).
Definition get_tail : M (option ref) := fun l => Ok (tail l, l).

Definition set_head (r : option ref) : M unit :=
  fun l => Ok (tt, {| nodes := nodes l; head := r; tail := tail l |}).

Definition set_tail (r : option ref) : M unit :=
  fun l => Ok (tt, {| nodes := nodes l; head := head l; tail := r |}).

(** [new Node(value, next, key)]: a reference no node has yet. *)
Definition new_Node (value : V) (next : option ref) (key : string) : M ref :=
  fun l =>
    let r := fresh (dom (nodes l)) in
    let n := {| next := next; prev := None; value := value; key := key |} in
    Ok (r, {| nodes := <[r := n]> (nodes l); head := head l; tail := tail l |}).

Definition msg_null : string := "Cannot read properties of null".

(** The object behind [r], for a property access [r.f]: a [TypeError] on
    [null].  (A reference outside the store does not exist in the program;
    the model makes it an error too.) *)
Definition deref (r : option ref) : M (ref * Node) :=
  fun l =>
    match r with
    | None => Throw (TypeError msg_null)
    | Some x =>
        match nodes l !! x with
        | Some n => Ok ((x, n), l)
        | None => Throw (TypeError msg_null)
        end
    end.

(** [r.f = v] written as the whole updated node. *)
Definition store (r : ref) (n : Node) : M unit :=
  fun l => Ok (tt, {| nodes := <[r := n]> (nodes l); head := head l; tail := tail l |}).

(** [constructor] *)
Definition new : DoublyLinkedList :=
  {| nodes := ∅; head := None; tail := None |}.

(** [addHead] *)
Definition addHead (value : V) (key : string) : M (option ref) :=
  let! h0 := get_head in
  let! r := new_Node value h0 key in
  set_head (Some r) >>
  let! t := get_tail in
  match t with
  | None => let! h := get_head in set_tail h
  | Some _ =>
      let! h := get_head in
      let! hn := deref h in
      let! nn := deref (next (snd hn)) in
      store (fst nn) (with_prev (snd nn) h)
  end >>
  get_head.

(** [deleteTail] *)
Definition deleteTail : M (option ref) :=
  let! deleted := get_tail in
  let! h := get_head in
  let! t := get_tail in
  (if decide (h = t) then set_tail None >> set_head None
   else
     let! tn := deref t in
     set_tail (prev (snd tn)) >>
     let! t' := get_tail in
     let! tn' := deref t' in
     store (fst tn') (with_next (snd tn') None)) >>
  ret deleted.

(** [deleteHead] *)
Definition deleteHead : M (option ref) :=
  let! deleted := get_head in
  let! h := get_head in
  let! t := get_tail in
  (if decide (h = t) then set_tail None >> set_head None
   else
     let! hn := deref h in
     set_head (next (snd hn)) >>
     let! h' := get_head in
     let! hn' := deref h' in
     store (fst hn') (with_prev (snd hn') None)) >>
  ret deleted.

(** [printList]: the lines logged, walking from the tail along [prev].
    [show] is the text of a value in a string concatenation; the loop is
    bounded by [fuel], and [None] means the bound was too small. *)
Variable show : V -> string.

Definition line (n : Node) : string := key n ++ ": " ++ show (value n).

Fixpoint printLoop (fuel : nat) (h : gmap ref Node) (current : option ref)
    : option (list string) :=
  match current with
  | None => Some []
  | Some r =>
      match fuel, h !! r with
      | S fuel', Some n =>
          option_map (cons (line n)) (printLoop fuel' h (prev n))
      | _, _ => None
      end
  end.

Definition printList (fuel : nat) (l : DoublyLinkedList) : option (list string) :=
  printLoop fuel (nodes l) (tail l).

(** The line [printList] logs for the node behind [r]. *)
Definition line_at (h : gmap ref Node) (r : ref) : string :=
  match h !! r with
  | Some n => line n
  | None => ""
  end.

(** A call of one of the three mutators. *)
Inductive op :=
| AddHead (value : V) (key : string)
| DeleteHead
| DeleteTail.

Definition do_op (o : op) : M (option ref) :=
  match o with
  | AddHead v k => addHead v k
  | DeleteHead => deleteHead
  | DeleteTail => deleteTail
  end.

(** The calls in order, from the given list; the results are dropped. *)
Fixpoint run (ops : list op) (l : DoublyLinkedList) : result DoublyLinkedList :=
  match ops with
  | [] => Ok l
  | o :: rest =>
      match do_op o l with
      | Ok (_, l') => run rest l'
      | Throw e => Throw e
      end
  end.

(** *** The shape of a well-formed list *)

(** [dlseg h p ls first final nx]: in the store [h] the references [ls] are
    a chain from [first] to [final] along [next], the node before the chain
    is [p] and the one after it is [nx]. *)
Fixpoint dlseg (h : gmap ref Node) (p : option ref) (ls : list ref)
    (first final nx : option ref) : Prop :=
  match ls with
  | [] => first = nx /\ final = p
  | r :: rest =>
      first = Some r /\
      exists n, h !! r = Some n /\ prev n = p /\
                dlseg h (Some r) rest (next n) final nx
  end.

(** [l] holds exactly the nodes [ls], head first. *)
Definition is_list (l : DoublyLinkedList) (ls : list ref) : Prop :=
  dlseg (nodes l) None ls (head l) (tail l) None /\ NoDup ls.

End List.

Arguments next {V} _.
Arguments prev {V} _.
Arguments value {V} _.
Arguments key {V} _.
Arguments with_next {V} _ _.
Arguments with_prev {V} _ _.
Arguments nodes {V} _.
Arguments head {V} _.
Arguments tail {V} _.
Arguments new {V}.
Arguments addHead {V} _ _ _.
Arguments deleteTail {V} _.
Arguments deleteHead {V} _.
Arguments printList {V} _ _ _.
Arguments printLoop {V} _ _ _ _.
Arguments line {V} _ _.
Arguments line_at {V} _ _ _.
Arguments do_op {V} _ _.
Arguments AddHead {V} _ _.
Arguments DeleteHead {V}.
Arguments DeleteTail {V}.
Arguments run {V} _ _.
Arguments dlseg {V} _ _ _ _ _ _.
Arguments is_list {V} _ _.

(** The list after [addHead(1, 'a')], [addHead(2, 'b')], [addHead(3, 'c')]
    on a new list. *)
Definition three : DoublyLinkedList Z :=
  match run [AddHead 1%Z "a"; AddHead 2%Z "b"; AddHead 3%Z "c"] new with
  | Ok l => l
  | Throw _ => new
  end.

End DLL.

(** * The list as a double-ended queue *)

Module Deque.
Import DLL.

Section Deque.

Variable V : Type.

(** What a caller reads off a node: its key and its value. *)
Definition entry : Type := string * V.

Definition read_node (h : gmap positive (Node V)) (r : positive) : option entry :=
  match h !! r with
  | Some n => Some (key n, value n)
  | None => None
  end.

(** What a caller reads off the handle a method returned; [null] has
    nothing to read. *)
Definition read (l : DoublyLinkedList V) (r : option positive) : option entry :=
  match r with
  | Some x => read_node (nodes l) x
  | None => None
  end.

(** The entries of the nodes [ls], in that order. *)
Definition contents (h : gmap positive (Node V)) (ls : list positive) : list entry :=
  omap (read_node h) ls.

(** The calls in order, with what each one returned, read when it
    returned. *)
Fixpoint run_log (ops : list (op V)) (l : DoublyLinkedList V)
    : result (list (option entry) * DoublyLinkedList V) :=
  match ops with
  | [] => Ok ([], l)
  | o :: rest =>
      match do_op o l with
      | Ok (r, l') =>
          match run_log rest l' with
          | Ok (log, l'') => Ok (read l' r :: log, l'')
          | Throw e => Throw e
          end
      | Throw e => Throw e
      end
  end.

(** The same calls on a plain sequence of entries, front first. *)
Definition seq_op (o : op V) (q : list entry) : option entry * list entry :=
  match o with
  | AddHead v k => (Some (k, v), (k, v) :: q)
  | DeleteHead => (hd_error q, List.tl q)
  | DeleteTail => (last q, removelast q)
  end.

Fixpoint seq_run (ops : list (op V)) (q : list entry) : list (option entry) * list entry :=
  match ops with
  | [] => ([], q)
  | o :: rest =>
      let (r, q') := seq_op o q in
      let (log, q'') := seq_run rest q' in
      (r :: log, q'')
  end.

(** [addHead] of each entry, in order. *)
Definition adds (es : list entry) : list (op V) :=
  map (fun e => AddHead (snd e) (fst e)) es.

End Deque.

Arguments read_node {V} _ _.
Arguments read {V} _ _.
Arguments contents {V} _ _.
Arguments run_log {V} _ _.
Arguments seq_op {V} _ _.
Arguments seq_run {V} _ _.
Arguments adds {V} _.

End Deque.

(** * Well-formed TTL strings *)

From Stdlib Require DecimalString DecimalN DecimalPos.

Module Ttl.

Local Open Scope string_scope.

(** The three units of the error message of [#parseExpTime]. *)
Inductive ttl_unit :=
| Hours
| Minutes
| Seconds.

Definition letter (u : ttl_unit) : string :=
  match u with
  | Hours => "h"
  | Minutes => "m"
  | Seconds => "s"
  end.

Definition seconds_in (u : ttl_unit) : Z :=
  match u with
  | Hours => 3600
  | Minutes => 60
  | Seconds => 1
  end.

(** A natural number in decimal digits, as [String(n)] writes it. *)
Definition decimal (n : N) : string :=
  DecimalString.NilZero.string_of_uint (N.to_uint n).

(** A numerical value followed by its unit letter. *)
Definition element (it : N * ttl_unit) : string :=
  decimal (fst it) ++ letter (snd it).

(** [k] spaces. *)
Fixpoint spaces (k : nat) : string :=
  match k with
  | O => ""
  | S k' => String " " (spaces k')
  end.

(** An element after some spaces, as in the ['2h, 5m, 3s'] of the class
    comment. *)
Definition padded (p : nat * (N * ttl_unit)) : string :=
  spaces (fst p) ++ element (snd p).

Definition ttl_string_padded (its : list (nat * (N * ttl_unit))) : string :=
  String.concat "," (map padded its).

(** The seconds the elements stand for. *)
Definition total (its : list (N * ttl_unit)) : Z :=
  fold_right (fun it acc => Z.of_N (fst it) * seconds_in (snd it) + acc)%Z 0%Z its.

(** Every code unit of the string satisfies the test. *)
Fixpoint all_chars (P : ascii -> bool) (s : string) : bool :=
  match s with
  | EmptyString => true
  | String c r => P c && all_chars P r
  end.

Definition is_digit (c : ascii) : bool :=
  let n := N_of_ascii c in ((48 <=? n) && (n <=? 57))%N.

Definition not_white (c : ascii) : bool := negb (Str.is_white c).
Definition not_comma (c : ascii) : bool := negb (Ascii.eqb c ",").

End Ttl.

(** * Values *)

Module JS.

Local Open Scope string_scope.

(** The values the middleware handles: primitives and plain objects (own
    data properties, in order). *)
#[local] Unset Elimination Schemes.
Inductive value :=
| VUndefined
| VNull
| VBoolean (b : bool)
| VNumber (n : number)
| VString (s : string)
| VObject (fields : list (string * value)).
#[local] Set Elimination Schemes.

(** ToBoolean *)
Definition truthy (v : value) : bool :=
  match v with
  | VUndefined | VNull => false
  | VBoolean b => b
  | VNumber n => Num.truthy n
  | VString s => Str.truthy s
  | VObject _ => true
  end.

Fixpoint field (name : string) (fields : list (string * value)) : value :=
  match fields with
  | [] => VUndefined
  | (k, v) :: rest => if String.eqb k name then v else field name rest
  end.

(** [v.name] for one of the names [headers], [body], [status], [type], which
    no primitive has: a [TypeError] on [null] and [undefined], [undefined]
    on the other primitives and on an object without the property. *)
Definition prop (v : value) (name : string) : result value :=
  match v with
  | VUndefined | VNull => Throw (TypeError DLL.msg_null)
  | VObject fields => Ok (field name fields)
  | VBoolean _ | VNumber _ | VString _ => Ok VUndefined
  end.

(** The code units of a string as the properties ["0"], ["1"], ... *)
Fixpoint indexed (i : N) (s : string) : list (string * value) :=
  match s with
  | EmptyString => []
  | String c r => (Ttl.decimal i, VString (String c "")) :: indexed (N.succ i) r
  end.

(** [Object.assign({}, v)] *)
Definition assign_empty (v : value) : value :=
  match v with
  | VObject fields => VObject fields
  | VString s => VObject (indexed 0 s)
  | VUndefined | VNull | VBoolean _ | VNumber _ => VObject []
  end.

End JS.

(** * The middleware [use] and the patched [toDomResponse] *)

Module Middleware.
Import Zoic JS.

Local Open Scope string_scope.

(** What [this.cache.get(key)] does: it returns a value ([undefined] on a
    miss), or it throws; [err] is the text [${err}] prints. *)
Inductive get_call :=
| GetReturns (cacheResults : value)
| GetThrows (err : string).

(** What a call of [cache.put(key, value)] does before any [await]: it
    throws, or it returns something that settles as a [put_outcome]. *)
Inductive put_call :=
| PutReturns (settles : put_outcome)
| PutThrows (err : string).

(** [ctx.response.toDomResponse]: the method of the framework, or the patch
    of [makeResponseCacheable]. *)
Inductive dom_method :=
| Original
| Patched.

(** The parts of [ctx.response] the middleware reads and writes, as the
    values held for the four properties.  The framework's [status] reads
    the held value when it is truthy and a default (200, 204 or 404) when it
    is not; a statement about what [status] reads is made for truthy values
    only.  The response is taken to be writable. *)
Record Response := {
  headers : value;
  body : value;
  status : value;
  type : value;
  toDomResponse : dom_method
}.

(** The parts of the oak [Context] the middleware reads and writes. *)
Record Ctx := {
  pathname : string;
  search : string;
  response : Response;
  zoicResponse : value
}.

Definition set_response (ctx : Ctx) (r : Response) : Ctx :=
  {| pathname := pathname ctx; search := search ctx; response := r;
     zoicResponse := zoicResponse ctx |}.

Definition set_headers (ctx : Ctx) (v : value) : Ctx :=
  let r := response ctx in
  set_response ctx {| headers := v; body := body r; status := status r;
                      type := type r; toDomResponse := toDomResponse r |}.

Definition set_body (ctx : Ctx) (v : value) : Ctx :=
  let r := response ctx in
  set_response ctx {| headers := headers r; body := v; status := status r;
                      type := type r; toDomResponse := toDomResponse r |}.

Definition set_status (ctx : Ctx) (v : value) : Ctx :=
  let r := response ctx in
  set_response ctx {| headers := headers r; body := body r; status := v;
                      type := type r; toDomResponse := toDomResponse r |}.

Definition set_type (ctx : Ctx) (v : value) : Ctx :=
  let r := response ctx in
  set_response ctx {| headers := headers r; body := body r; status := status r;
                      type := v; toDomResponse := toDomResponse r |}.

Definition set_zoicResponse (ctx : Ctx) (v : value) : Ctx :=
  {| pathname := pathname ctx; search := search ctx; response := response ctx;
     zoicResponse := v |}.

(** [makeResponseCacheable]: [toDomResponse] becomes the patch. *)
Definition makeResponseCacheable (ctx : Ctx) : Ctx :=
  let r := response ctx in
  set_response ctx {| headers := headers r; body := body r; status := status r;
                      type := type r; toDomResponse := Patched |}.

(** A call of [console.log]. *)
Inductive logged :=
| LogHit (headers body status : value)
| LogError (text : string).

(** The four assignments on a hit.  A read that throws leaves the context
    as the assignments before it made it. *)
Definition respond (cacheResults : value) (ctx : Ctx) : Ctx + Ctx :=
  match prop cacheResults "headers" with
  | Throw _ => inr ctx
  | Ok h =>
      let ctx := set_headers ctx h in
      match prop cacheResults "body" with
      | Throw _ => inr ctx
      | Ok b =>
          let ctx := set_body ctx b in
          match prop cacheResults "status" with
          | Throw _ => inr ctx
          | Ok s =>
              let ctx := set_status ctx s in
              match prop cacheResults "type" with
              | Throw _ => inr ctx
              | Ok t => inl (set_type ctx t)
              end
          end
      end
  end.

(** The [catch] of [use]. *)
Definition use_failed (ctx : Ctx) (err : string) : Ctx * list logged :=
  let text := "error in ZoicCache.use: " ++ err in
  (set_body (set_status ctx (VNumber (of_Z 400))) (VString text), [LogError text]).

(** The object literal of the patch. *)
Definition cached_response (r : Response) : value :=
  VObject [("body", body r); ("headers", headers r);
           ("status", status r); ("type", type r)].

(** What the patch hands to the [toDomResponse] of the framework. *)
Record sent := {
  sent_headers : value;
  sent_body : value;
  sent_status : value;
  sent_type : value
}.

(** How a call of the patch ends. *)
Inductive completion (A : Type) :=
| Normal (a : A)
| Abrupt (err : string).
Arguments Normal {A} a.
Arguments Abrupt {A} err.

Section Engines.

(** The two eviction engines are not part of [zoicCache.ts]: their [get] and
    [put] are taken as given. *)
Variables (LRU LFU : Type).
Variable LRU_get : LRU -> string -> get_call * LRU.
Variable LFU_get : LFU -> string -> get_call * LFU.
Variable LRU_put : LRU -> string -> value -> put_call * LRU.
Variable LFU_put : LFU -> string -> value -> put_call * LFU.

(** [this.cache.get(key)], dispatched on the engine. *)
Definition cache_get (c : engine LRU LFU) (key : string) : get_call * engine LRU LFU :=
  match c with
  | IsLRU _ _ l => let (o, l') := LRU_get l key in (o, IsLRU _ _ l')
  | IsLFU _ _ l => let (o, l') := LFU_get l key in (o, IsLFU _ _ l')
  end.

(** [cache.put(key, value)], dispatched on the engine. *)
Definition cache_put_call (c : engine LRU LFU) (key : string) (v : value)
    : put_call * engine LRU LFU :=
  match c with
  | IsLRU _ _ l => let (o, l') := LRU_put l key v in (o, IsLRU _ _ l')
  | IsLFU _ _ l => let (o, l') := LFU_put l key v in (o, IsLFU _ _ l')
  end.

Definition with_cache (self : ZoicCache LRU LFU) (c : engine LRU LFU) : ZoicCache LRU LFU :=
  {| cache := c; expire := expire _ _ self; respondOnHit := respondOnHit _ _ self |}.

(** [use], on the cache as it is when the call is made.  What [next] does
    is not modelled. *)
Definition use (self : ZoicCache LRU LFU) (ctx : Ctx)
    : ending * Ctx * ZoicCache LRU LFU * list logged :=
  let key := pathname ctx ++ search ctx in
  let (got, c') := cache_get (cache _ _ self) key in
  let self' := with_cache self c' in
  match got with
  | GetThrows err =>
      let (ctx', log) := use_failed ctx err in (Returned, ctx', self', log)
  | GetReturns cacheResults =>
      if negb (truthy cacheResults) then
        (CalledNext, makeResponseCacheable ctx, self', [])
      else if respondOnHit _ _ self then
        match respond cacheResults ctx with
        | inl ctx' =>
            let r := response ctx' in
            (Returned, ctx', self', [LogHit (headers r) (body r) (status r)])
        | inr ctx' =>
            let (ctx'', log) := use_failed ctx' ("TypeError: " ++ DLL.msg_null) in
            (Returned, ctx'', self', log)
        end
      else
        (CalledNext, set_zoicResponse ctx (assign_empty cacheResults), self', [])
  end.

(** A call of [ctx.response.toDomResponse()] when it is the patch: the
    response is put in the cache under the key of the request, then its four
    properties go to the framework.  The result of the put is not looked
    at; a put that throws ends the call. *)
Definition patched_toDomResponse (self : ZoicCache LRU LFU) (ctx : Ctx)
    : completion sent * ZoicCache LRU LFU :=
  let key := pathname ctx ++ search ctx in
  let r := response ctx in
  let (done, c') := cache_put_call (cache _ _ self) key (cached_response r) in
  let self' := with_cache self c' in
  match done with
  | PutThrows err => (Abrupt err, self')
  | PutReturns _ =>
      (Normal {| sent_headers := headers r; sent_body := body r;
                 sent_status := status r; sent_type := type r |}, self')
  end.

End Engines.

(** An engine for examples: the pairs put so far, the last one first; [get]
    returns the value of the first pair with the key. *)
Definition pairs_get (c : list (string * value)) (key : string)
    : get_call * list (string * value) :=
  (GetReturns (field key c), c).

Definition pairs_put (c : list (string * value)) (key : string) (v : value)
    : put_call * list (string * value) :=
  (PutReturns (Resolved (of_Z 0)), (key, v) :: c).

Definition pairs_cache (c : list (string * value))
    : ZoicCache (list (string * value)) (list (string * value)) :=
  {| cache := IsLRU _ _ c; expire := of_Z 86400; respondOnHit := true |}.

(** A request for [/dbRead?id=1] whose response a handler has filled in,
    and a later request for the same path and query. *)
Definition answered : Ctx :=
  {| pathname := "/dbRead"; search := "?id=1";
     response := {| headers := VObject [("etag", VString "test tag")];
                    body := VString "woww cool";
                    status := VNumber (of_Z 200);
                    type := VString "text";
                    toDomResponse := Patched |};
     zoicResponse := VUndefined |}.

Definition incoming : Ctx :=
  {| pathname := "/dbRead"; search := "?id=1";
     response := {| headers := VUndefined; body := VUndefined;
                    status := VNumber (of_Z 404); type := VUndefined;
                    toDomResponse := Original |};
     zoicResponse := VUndefined |}.

End Middleware.

(** * Properties of the facade *)

Module ZoicFacts.
Import Zoic.

Local Open Scope string_scope.

(** The string of the example in the class comment. *)
Example parseExpTime_class_comment :
  parseExpTime (Some (ExpString "2h, 5m, 3s")) = Ok (of_Z 7503).
Proof. reflexivity. Qed.

Example parseExpTime_absent : parseExpTime None = Ok (of_Z 86400).
Proof. reflexivity. Qed.

Example parseExpTime_negative :
  parseExpTime (Some (ExpNumber (of_Z (-1)))) = Throw (TypeError msg_range).
Proof. reflexivity. Qed.

Example parseExpTime_no_unit :
  parseExpTime (Some (ExpString "90")) = Throw (TypeError msg_format).
Proof. reflexivity. Qed.

Example parseInt_examples :
  Str.parseInt " 12abc" = of_Z 12 /\ Str.parseInt "-0x1F" = of_Z (-31) /\
  Str.parseInt "1.5" = of_Z 1 /\ Str.parseInt "" = NaN /\ Str.parseInt "x" = NaN.
Proof. repeat split. Qed.

Lemma addUnit_cases arr el :
  (unit_suffix el = true /\ exists n, addUnit arr el = Ok n) \/
  (unit_suffix el = false /\ addUnit arr el = Throw (TypeError msg_format)).
Proof.
  unfold addUnit, unit_suffix.
  destruct (Str.last_char el) as [c|]; [|right; split; reflexivity].
  repeat case_decide; simplify_eq; simpl; eauto.
  right. split; [|reflexivity].
  destruct (Ascii.eqb_spec c "h"), (Ascii.eqb_spec c "m"), (Ascii.eqb_spec c "s");
    simpl; congruence.
Qed.

(** The first element without a unit letter stops the sum with the format
    error, whatever comes before or after it. *)
Lemma reduce_bad_suffix xs acc :
  Exists (fun el => unit_suffix el = false) xs ->
  reduce addUnit xs acc = Throw (TypeError msg_format).
Proof.
  intros Hex. revert acc.
  induction xs as [|el rest IH]; intros acc; [inversion Hex|].
  simpl. destruct (addUnit_cases acc el) as [[Hs [n Hn]]|[Hs Hn]]; rewrite Hn; simpl.
  - apply IH. inversion Hex; subst; [congruence|assumption].
  - reflexivity.
Qed.

Lemma parseExpTime_bad_suffix s :
  Str.truthy s = true ->
  Exists (fun el => unit_suffix el = false) (Str.split "," (Str.trim s)) ->
  parseExpTime (Some (ExpString s)) = Throw (TypeError msg_format).
Proof.
  intros Ht Hex. unfold parseExpTime. simpl. rewrite Ht. simpl.
  rewrite (reduce_bad_suffix _ _ Hex). reflexivity.
Qed.

(** A number strictly between the bounds, or equal to the upper one, is
    kept as it is. *)
Lemma parseExpTime_number q :
  (0 < q)%Q -> (q <= inject_Z 86400)%Q ->
  parseExpTime (Some (ExpNumber (Fin q))) = Ok (Fin q).
Proof.
  intros Hpos Hle. unfold parseExpTime. simpl.
  assert (Hz : is_zero q = false).
  { unfold is_zero. apply Z.eqb_neq. unfold Qlt in Hpos. simpl in Hpos. lia. }
  rewrite Hz. simpl.
  assert (H1 : Qle_bool q (inject_Z 86400) = true) by (apply Qle_bool_iff; exact Hle).
  assert (H2 : Qle_bool (inject_Z 0) q = true).
  { apply Qle_bool_iff. apply Qlt_le_weak. exact Hpos. }
  unfold lt, gt, of_Z. rewrite H1, H2. reflexivity.
Qed.

(** The string path accepts a total of zero. *)
Lemma parseExpTime_zero_seconds :
  parseExpTime (Some (ExpString "0s")) = Ok (of_Z 0).
Proof. reflexivity. Qed.

(** At the number 0 the parser answers the default: [!numberString] is
    true of 0. *)
Lemma parseExpTime_number_zero :
  parseExpTime (Some (ExpNumber (of_Z 0))) = Ok (of_Z 86400).
Proof. reflexivity. Qed.

(** The string [xh] has a unit letter and no number in front of it: the sum
    is [NaN], and [NaN] passes the range test. *)
Lemma parseExpTime_no_number :
  parseExpTime (Some (ExpString "xh")) = Ok NaN.
Proof. reflexivity. Qed.


Section Facade.

Variables (V LRU LFU : Type).
Variable new_LRU : number -> LRU.
Variable new_LFU : number -> LFU.
Variable LRU_put : LRU -> string -> V -> put_outcome * LRU.
Variable LFU_put : LFU -> string -> V -> put_outcome * LFU.

Local Abbreviation new_ZoicCache := (new_ZoicCache LRU LFU new_LRU new_LFU).
Local Abbreviation initCacheType := (initCacheType LRU LFU new_LRU new_LFU).
Local Abbreviation put := (put V LRU LFU LRU_put LFU_put).
Local Abbreviation cache_put := (cache_put V LRU LFU LRU_put LFU_put).

(** The constructor fails exactly when the parser does, with its error. *)
Lemma new_ZoicCache_throws opts e :
  new_ZoicCache opts = Throw e <-> parseExpTime (opt_chain opts opt_expire) = Throw e.
Proof.
  unfold Zoic.new_ZoicCache.
  destruct (parseExpTime (opt_chain opts opt_expire)); simpl; split; congruence.
Qed.

Lemma new_ZoicCache_ok opts z :
  new_ZoicCache opts = Ok z ->
  parseExpTime (opt_chain opts opt_expire) = Ok (expire _ _ z) /\
  cache _ _ z = initCacheType (expire _ _ z) (opt_chain opts opt_cache) /\
  respondOnHit _ _ z = or_else (opt_chain opts opt_respondOnHit) true.
Proof.
  unfold Zoic.new_ZoicCache.
  destruct (parseExpTime (opt_chain opts opt_expire)); simpl; intros H; [|discriminate].
  injection H as <-. auto.
Qed.

(** C1. The claim: every numeric [expire] from 0 to 86400 is the
    configured time, and 0 gives a time of 0.  The code at the number 0: the
    constructor returns a cache whose time is the default 86400, while the
    string [0s] gives the time 0. *)
Theorem expire_number_zero_gives_default c r :
  (exists z,
     new_ZoicCache (Some {| opt_cache := c; opt_expire := Some (ExpNumber (of_Z 0));
                            opt_respondOnHit := r |}) = Ok z /\
     expire _ _ z = of_Z 86400) /\
  (exists z,
     new_ZoicCache (Some {| opt_cache := c; opt_expire := Some (ExpString "0s");
                            opt_respondOnHit := r |}) = Ok z /\
     expire _ _ z = of_Z 0).
Proof. split; eexists; split; reflexivity. Qed.

(** C2. The claim: every malformed TTL string makes the construction throw.
    The code at the string [xh]: the constructor returns a cache, and its
    time is [NaN]. *)
Theorem expire_string_without_number_gives_NaN c r :
  exists z,
    new_ZoicCache (Some {| opt_cache := c; opt_expire := Some (ExpString "xh");
                           opt_respondOnHit := r |}) = Ok z /\
    expire _ _ z = NaN.
Proof. eexists. split; reflexivity. Qed.

(** A TTL string with an element that does not end in a unit letter makes
    the construction throw the format error. *)
Lemma new_ZoicCache_bad_suffix c r s :
  Str.truthy s = true ->
  Exists (fun el => unit_suffix el = false) (Str.split "," (Str.trim s)) ->
  new_ZoicCache (Some {| opt_cache := c; opt_expire := Some (ExpString s);
                         opt_respondOnHit := r |})
  = Throw (TypeError msg_format).
Proof.
  intros Ht Hex. apply new_ZoicCache_throws. simpl.
  apply parseExpTime_bad_suffix; assumption.
Qed.

(** C3. The TTL string [1h,30m,15s] parses to 5415 seconds, and a
    construction with the TTL string [25h] throws the range error, whatever
    the other options are. *)
Theorem ttl_string_scenario :
  parseExpTime (Some (ExpString "1h,30m,15s")) = Ok (of_Z 5415) /\
  forall c r,
    new_ZoicCache (Some {| opt_cache := c; opt_expire := Some (ExpString "25h");
                           opt_respondOnHit := r |})
    = Throw (TypeError msg_range).
Proof. split; [reflexivity | intros c r; reflexivity]. Qed.

(** C4. Every cache the constructor returns has [respondOnHit] true, also
    when the options say false. *)
Theorem respondOnHit_always_true opts z :
  new_ZoicCache opts = Ok z -> respondOnHit _ _ z = true.
Proof.
  intros H. apply new_ZoicCache_ok in H as (_ & _ & ->).
  unfold or_else. destruct (opt_chain opts opt_respondOnHit) as [[|]|]; reflexivity.
Qed.

(** C9. A constructed cache is backed by the recency engine when the policy
    option is absent, by the frequency engine when it is [LFU], and by the
    recency engine for every other value. *)
Theorem policy_selection opts z :
  new_ZoicCache opts = Ok z ->
  (opt_chain opts opt_cache = None ->
   cache _ _ z = IsLRU _ _ (new_LRU (expire _ _ z))) /\
  (opt_chain opts opt_cache = Some "LFU" ->
   cache _ _ z = IsLFU _ _ (new_LFU (expire _ _ z))) /\
  (forall s, opt_chain opts opt_cache = Some s -> s <> "LFU" ->
   cache _ _ z = IsLRU _ _ (new_LRU (expire _ _ z))).
Proof.
  intros H. apply new_ZoicCache_ok in H as (_ & -> & _).
  unfold Zoic.initCacheType. repeat split.
  - intros ->. reflexivity.
  - intros ->. reflexivity.
  - intros s -> Hs. case_decide; [congruence | reflexivity].
Qed.


End Facade.

(** *** The statements above at concrete options and engines *)

Lemma respondOnHit_always_true_witness :
  let z := {| cache := IsLFU unit unit tt; expire := of_Z 7503; respondOnHit := true |} in
  new_ZoicCache unit unit (fun _ => tt) (fun _ => tt) opts_false = Ok z /\
  respondOnHit unit unit z = true.
Proof.
  intros z. split; [reflexivity|].
  apply (respondOnHit_always_true unit unit (fun _ => tt) (fun _ => tt) opts_false).
  reflexivity.
Defined.

Lemma policy_selection_witness :
  let z := {| cache := IsLFU unit unit tt; expire := of_Z 7503; respondOnHit := true |} in
  new_ZoicCache unit unit (fun _ => tt) (fun _ => tt) opts_false = Ok z /\
  cache unit unit z = IsLFU unit unit tt.
Proof.
  intros z. split; [reflexivity|].
  refine (proj1 (proj2 (policy_selection unit unit (fun _ => tt) (fun _ => tt)
                          opts_false z _)) _); reflexivity.
Defined.



End ZoicFacts.

(** * Properties of the ordered list *)

Module DLLFacts.
Import DLL.

Local Open Scope nat_scope.

Section List.

Variable V : Type.
Implicit Types (h : gmap positive (Node V)) (l : DoublyLinkedList V)
  (ls : list positive) (p first final nx : option positive).

(** *** Chains *)

Lemma dlseg_frame h h' p ls first final nx :
  (forall r, r ∈ ls -> h' !! r = h !! r) ->
  dlseg h p ls first final nx -> dlseg h' p ls first final nx.
Proof.
  revert p first. induction ls as [|r rest IH]; intros p first Hsame; simpl; [tauto|].
  intros [-> (n & Hn & Hp & Hrest)]. split; [reflexivity|].
  exists n. split; [rewrite Hsame; [exact Hn | left]|].
  split; [exact Hp|]. apply IH; [|exact Hrest].
  intros r' Hr'. apply Hsame. right. exact Hr'.
Qed.

Lemma dlseg_lookup h p ls first final nx r :
  dlseg h p ls first final nx -> r ∈ ls -> is_Some (h !! r).
Proof.
  revert p first. induction ls as [|x rest IH]; intros p first; simpl.
  - intros _ Hin. inversion Hin.
  - intros [_ (n & Hn & _ & Hrest)] Hin.
    apply elem_of_cons in Hin as [->|Hin]; [eauto | eapply IH; eauto].
Qed.

(** A chain read from its last node. *)
Lemma dlseg_snoc h p ls z first final nx :
  dlseg h p (ls ++ [z]) first final nx <->
  final = Some z /\
  exists n, h !! z = Some n /\ next n = nx /\
            dlseg h p ls first (prev n) (Some z).
Proof.
  revert p first. induction ls as [|r rest IH]; intros p first; simpl.
  - split.
    + intros [-> (n & Hn & Hp & Hnx & Hl)]. split; [exact Hl|]. exists n. auto.
    + intros [-> (n & Hn & Hnx & Hf & Hp)]. split; [exact Hf|]. exists n. auto.
  - split.
    + intros [-> (n & Hn & Hp & Hrest)].
      apply IH in Hrest as [-> (m & Hm & Hnx & Hrest)].
      split; [reflexivity|]. exists m. repeat split; try assumption. exists n. auto.
    + intros [-> (m & Hm & Hnx & [-> (n & Hn & Hp & Hrest)])].
      split; [reflexivity|]. exists n. repeat split; try assumption.
      apply IH. split; [reflexivity|]. exists m. auto.
Qed.

Lemma dlseg_first_None h p ls final :
  dlseg h p ls None final None <-> ls = [] /\ final = p.
Proof.
  destruct ls as [|r rest]; simpl.
  - tauto.
  - split; [intros [? _]; discriminate | intros [? _]; discriminate].
Qed.

Lemma dlseg_final_None h ls first nx :
  dlseg h None ls first None nx -> ls = [].
Proof.
  destruct ls as [|x rest _] using rev_ind; [reflexivity|].
  intros H. apply dlseg_snoc in H as [? _]. discriminate.
Qed.

(** *** Well-formed lists *)

Lemma is_list_nil l : is_list l [] <-> head l = None /\ tail l = None.
Proof.
  unfold is_list. simpl. split.
  - tauto.
  - intros [-> ->]. repeat split. constructor.
Qed.

Lemma is_list_head l ls : is_list l ls -> (head l = None <-> ls = []).
Proof.
  intros [Hseg _]. split.
  - intros Hh. rewrite Hh in Hseg. apply dlseg_first_None in Hseg. tauto.
  - intros ->. simpl in Hseg. tauto.
Qed.

Lemma is_list_tail l ls : is_list l ls -> (tail l = None <-> ls = []).
Proof.
  intros [Hseg _]. split.
  - intros Ht. rewrite Ht in Hseg. eapply dlseg_final_None; eauto.
  - intros ->. simpl in Hseg. tauto.
Qed.

Lemma is_list_new : is_list (@new V) [].
Proof. apply is_list_nil. split; reflexivity. Qed.

(** *** The three mutators, run *)

Lemma addHead_on_empty l v k :
  head l = None -> tail l = None ->
  let r := fresh (dom (nodes l)) in
  addHead v k l =
  Ok (Some r,
      {| nodes := <[r := {| next := None; prev := None; value := v; key := k |}]> (nodes l);
         head := Some r; tail := Some r |}).
Proof.
  intros Hh Ht. unfold addHead, seq, get_head, get_tail, new_Node, set_head, set_tail.
  simpl. rewrite Hh, Ht. reflexivity.
Qed.

Lemma fresh_not_allocated h : h !! fresh (dom h) = None.
Proof. apply not_elem_of_dom. apply is_fresh. Qed.

Lemma addHead_on_nonempty l v k o t on :
  head l = Some o -> tail l = Some t -> nodes l !! o = Some on ->
  let r := fresh (dom (nodes l)) in
  addHead v k l =
  Ok (Some r,
      {| nodes := <[o := with_prev on (Some r)]>
                    (<[r := {| next := Some o; prev := None; value := v; key := k |}]>
                       (nodes l));
         head := Some r; tail := Some t |}).
Proof.
  intros Hh Ht Ho r.
  assert (Hne : r <> o).
  { intros Heq. pose proof (fresh_not_allocated (nodes l)) as Hf.
    fold r in Hf. rewrite Heq in Hf. congruence. }
  unfold addHead, seq, get_head, get_tail, new_Node, set_head, set_tail, deref, store.
  simpl. rewrite Hh, Ht. fold r. simpl.
  rewrite lookup_insert_eq. simpl.
  rewrite lookup_insert_ne by exact Hne. rewrite Ho. reflexivity.
Qed.

Lemma delete_on_empty l :
  head l = None -> tail l = None ->
  deleteTail l = Ok (None, l) /\ deleteHead l = Ok (None, l).
Proof.
  destruct l as [h hd tl]. simpl. intros -> ->. split; reflexivity.
Qed.

Lemma delete_on_single l x :
  head l = Some x -> tail l = Some x ->
  let l' := {| nodes := nodes l; head := None; tail := None |} in
  deleteTail l = Ok (Some x, l') /\ deleteHead l = Ok (Some x, l').
Proof.
  intros Hh Ht.
  unfold deleteTail, deleteHead, seq, get_head, get_tail, set_head, set_tail, ret.
  simpl. rewrite Hh, Ht. split; rewrite decide_True by reflexivity; reflexivity.
Qed.

Lemma deleteTail_on_many l a z zn y yn :
  head l = Some a -> tail l = Some z -> a <> z ->
  nodes l !! z = Some zn -> prev zn = Some y -> nodes l !! y = Some yn ->
  deleteTail l =
  Ok (Some z,
      {| nodes := <[y := with_next yn None]> (nodes l); head := Some a; tail := Some y |}).
Proof.
  intros Hh Ht Hne Hz Hp Hy.
  unfold deleteTail, seq, get_head, get_tail, set_head, set_tail, ret, deref, store.
  simpl. rewrite Hh, Ht. rewrite decide_False by congruence.
  rewrite Hz. simpl. rewrite Hp, Hy. simpl. rewrite Hh. reflexivity.
Qed.

Lemma deleteHead_on_many l a z an b bn :
  head l = Some a -> tail l = Some z -> a <> z ->
  nodes l !! a = Some an -> next an = Some b -> nodes l !! b = Some bn ->
  deleteHead l =
  Ok (Some a,
      {| nodes := <[b := with_prev bn None]> (nodes l); head := Some b; tail := Some z |}).
Proof.
  intros Hh Ht Hne Ha Hn Hb.
  unfold deleteHead, seq, get_head, get_tail, set_head, set_tail, ret, deref, store.
  simpl. rewrite Hh, Ht. rewrite decide_False by congruence.
  rewrite Ha. simpl. rewrite Hn, Hb. simpl. rewrite Ht. reflexivity.
Qed.

(** *** The ends of a chain *)

Lemma dlseg_first_elem h p ls first final nx :
  dlseg h p ls first final nx -> ls <> [] ->
  exists a, first = Some a /\ hd_error ls = Some a.
Proof.
  destruct ls as [|a rest]; [congruence|].
  simpl. intros [-> _] _. eauto.
Qed.

Lemma dlseg_final_elem h p ls first final nx :
  dlseg h p ls first final nx -> ls <> [] ->
  exists z, final = Some z /\ last ls = Some z.
Proof.
  destruct ls as [|z rest _] using rev_ind; [congruence|].
  intros H _. apply dlseg_snoc in H as [-> _].
  exists z. split; [reflexivity | apply last_snoc].
Qed.

(** *** The three mutators keep the list well formed *)

Lemma addHead_step l ls v k :
  is_list l ls ->
  exists r l',
    addHead v k l = Ok (Some r, l') /\
    nodes l !! r = None /\
    is_list l' (r :: ls) /\
    head l' = Some r /\
    nodes l' !! r = Some {| next := head l; prev := None; value := v; key := k |} /\
    (ls = [] -> tail l' = Some r) /\
    (forall o, head l = Some o ->
       tail l' = tail l /\
       exists on, nodes l !! o = Some on /\
                  nodes l' !! o = Some (with_prev on (Some r))) /\
    (forall x, x <> r -> head l <> Some x -> nodes l' !! x = nodes l !! x).
Proof.
  intros Hl. pose proof (fresh_not_allocated (nodes l)) as Hfresh.
  set (r := fresh (dom (nodes l))) in *.
  destruct ls as [|o rest].
  - apply is_list_nil in Hl as [Hh Ht].
    exists r. eexists. split; [apply addHead_on_empty; assumption|].
    simpl. rewrite Hh. fold r.
    split; [exact Hfresh|]. split.
    { split; [|apply NoDup_singleton]. simpl. split; [reflexivity|].
      eexists. split; [apply lookup_insert_eq|]. simpl. auto. }
    split; [reflexivity|]. split; [apply lookup_insert_eq|].
    split; [reflexivity|]. split; [intros o Ho; discriminate|].
    intros x Hx _. apply lookup_insert_ne. congruence.
  - pose proof (proj1 (is_list_tail _ _ Hl)) as Htl.
    destruct Hl as [Hseg Hnd]. simpl in Hseg.
    destruct Hseg as [Hh (on & Hon & Hprev & Hrest)].
    destruct (tail l) as [t|] eqn:Ht; [|discriminate (Htl eq_refl)].
    assert (Hro : r <> o) by (intros Heq; rewrite Heq in Hfresh; congruence).
    assert (Hr : r ∉ o :: rest).
    { intros Hin. apply elem_of_cons in Hin as [Heq|Hin]; [contradiction|].
      destruct (dlseg_lookup _ _ _ _ _ _ _ Hrest Hin) as [? Hsome]. congruence. }
    apply NoDup_cons in Hnd as Hnd'. destruct Hnd' as [Ho Hnd'].
    exists r. eexists. split; [eapply addHead_on_nonempty; eassumption|].
    simpl. fold r. rewrite Hh.
    split; [exact Hfresh|]. split.
    { split; [|apply NoDup_cons; auto]. simpl. split; [reflexivity|].
      eexists. split; [rewrite lookup_insert_ne by congruence; apply lookup_insert_eq|].
      simpl. split; [reflexivity|]. split; [reflexivity|].
      eexists. split; [apply lookup_insert_eq|]. simpl. split; [reflexivity|].
      eapply dlseg_frame; [|exact Hrest].
      intros x Hx. rewrite !lookup_insert_ne; [reflexivity| |].
      - intros ->. apply Hr. right. exact Hx.
      - intros ->. contradiction. }
    split; [reflexivity|].
    split; [rewrite lookup_insert_ne by congruence; apply lookup_insert_eq|].
    split; [discriminate|]. split.
    { intros o' Ho'. injection Ho' as <-. split; [reflexivity|].
      exists on. split; [exact Hon | apply lookup_insert_eq]. }
    intros x Hx Hxo. rewrite !lookup_insert_ne; [reflexivity|congruence|congruence].
Qed.

Lemma deleteTail_many_step l ls y z :
  is_list l (ls ++ [y; z]) ->
  exists yn zn,
    nodes l !! y = Some yn /\ nodes l !! z = Some zn /\
    prev zn = Some y /\ next yn = Some z /\ tail l = Some z /\
    let l' := {| nodes := <[y := with_next yn None]> (nodes l);
                 head := head l; tail := Some y |} in
    deleteTail l = Ok (Some z, l') /\ is_list l' (ls ++ [y]).
Proof.
  intros [Hseg Hnd].
  replace (ls ++ [y; z]) with ((ls ++ [y]) ++ [z]) in * by (rewrite <- app_assoc; reflexivity).
  apply dlseg_snoc in Hseg as Hz. destruct Hz as [Ht (zn & Hzn & Hznx & Hseg')].
  apply dlseg_snoc in Hseg' as Hy. destruct Hy as [Hzp (yn & Hyn & Hynx & Hseg'')].
  apply NoDup_app in Hnd as (Hnd1 & Hdisj & _).
  apply NoDup_app in Hnd1 as Hnd1'. destruct Hnd1' as (_ & Hdisj' & _).
  destruct (dlseg_first_elem _ _ _ _ _ _ Hseg') as (a & Ha & Hain).
  { destruct ls; discriminate. }
  assert (Haz : a <> z).
  { intros ->. apply (Hdisj z); [|left].
    destruct (ls ++ [y]) as [|a' ?]; [discriminate|].
    injection Hain as ->. left. }
  exists yn, zn. repeat (split; [assumption|]).
  rewrite Ha. split.
  - eapply deleteTail_on_many; eassumption.
  - split; [|exact Hnd1]. simpl. apply dlseg_snoc. split; [reflexivity|].
    eexists. split; [apply lookup_insert_eq|]. simpl. split; [reflexivity|].
    eapply dlseg_frame; [|rewrite <- Ha; exact Hseg''].
    intros x Hx. apply lookup_insert_ne. intros ->.
    apply (Hdisj' x Hx). left.
Qed.

Lemma deleteHead_many_step l a b rest :
  is_list l (a :: b :: rest) ->
  exists an bn,
    nodes l !! a = Some an /\ nodes l !! b = Some bn /\
    next an = Some b /\ prev bn = Some a /\ head l = Some a /\
    let l' := {| nodes := <[b := with_prev bn None]> (nodes l);
                 head := Some b; tail := tail l |} in
    deleteHead l = Ok (Some a, l') /\ is_list l' (b :: rest).
Proof.
  intros [Hseg Hnd]. simpl in Hseg.
  destruct Hseg as [Hh (an & Han & Hap & [Hanx (bn & Hbn & Hbp & Hrest)])].
  apply NoDup_cons in Hnd as [Hab Hnd].
  apply NoDup_cons in Hnd as Hnd'. destruct Hnd' as [Hb _].
  assert (Hfin : exists z, tail l = Some z /\ z ∈ b :: rest).
  { assert (Hseg' : dlseg (nodes l) (Some a) (b :: rest) (Some b) (tail l) None).
    { simpl. split; [reflexivity|]. exists bn. auto. }
    destruct (dlseg_final_elem _ _ _ _ _ _ Hseg') as (z & Hz & Hlast); [discriminate|].
    exists z. split; [exact Hz | eapply last_Some_elem_of; exact Hlast]. }
  destruct Hfin as (z & Hz & Hzin).
  assert (Haz : a <> z) by (intros ->; contradiction).
  exists an, bn. repeat (split; [assumption|]).
  rewrite Hz. split.
  - eapply deleteHead_on_many; eassumption.
  - split; [|exact Hnd]. simpl. split; [reflexivity|].
    eexists. split; [apply lookup_insert_eq|]. simpl. split; [reflexivity|].
    eapply dlseg_frame; [|rewrite <- Hz; exact Hrest].
    intros x Hx. apply lookup_insert_ne. intros ->. contradiction.
Qed.

Lemma delete_single_step l x :
  is_list l [x] ->
  let l' := {| nodes := nodes l; head := None; tail := None |} in
  deleteTail l = Ok (Some x, l') /\ deleteHead l = Ok (Some x, l') /\ is_list l' [].
Proof.
  intros [Hseg _]. simpl in Hseg.
  destruct Hseg as [Hh (n & _ & _ & _ & Ht)].
  destruct (delete_on_single l x Hh Ht) as [H1 H2].
  repeat split; try assumption. constructor.
Qed.

Lemma delete_empty_step l :
  is_list l [] -> deleteTail l = Ok (None, l) /\ deleteHead l = Ok (None, l).
Proof. intros H. apply is_list_nil in H as [Hh Ht]. apply delete_on_empty; assumption. Qed.

(** *** Sequences of calls *)

Lemma do_op_step l ls o :
  is_list l ls ->
  exists res l' ls', do_op o l = Ok (res, l') /\ is_list l' ls'.
Proof.
  intros Hl. destruct o as [v k| |]; simpl.
  - destruct (addHead_step l ls v k Hl) as (r & l' & Hrun & _ & Hl' & _). eauto.
  - destruct ls as [|a [|b rest]].
    + destruct (delete_empty_step l Hl) as [_ Hrun]. eauto.
    + destruct (delete_single_step l a Hl) as (_ & Hrun & Hl'). eauto.
    + destruct (deleteHead_many_step l a b rest Hl)
        as (an & bn & _ & _ & _ & _ & _ & Hrun & Hl'). eauto.
  - destruct ls as [|z ls _] using rev_ind.
    + destruct (delete_empty_step l Hl) as [Hrun _]. eauto.
    + destruct ls as [|y ls _] using rev_ind.
      * destruct (delete_single_step l z Hl) as (Hrun & _ & Hl'). eauto.
      * rewrite <- app_assoc in Hl. simpl in Hl.
        destruct (deleteTail_many_step l ls y z Hl)
          as (yn & zn & _ & _ & _ & _ & _ & Hrun & Hl'). eauto.
Qed.

Lemma run_step ops : forall l ls,
  is_list l ls -> exists l' ls', run ops l = Ok l' /\ is_list l' ls'.
Proof.
  induction ops as [|o rest IH]; intros l ls Hl; simpl.
  - eauto.
  - destruct (do_op_step l ls o Hl) as (res & l1 & ls1 & -> & Hl1).
    apply (IH l1 ls1 Hl1).
Qed.

(** *** The traversal of [printList] *)

Lemma printLoop_chain show h ls : forall first final nx fuel,
  dlseg h None ls first final nx -> length ls <= fuel ->
  printLoop show fuel h final = Some (rev (map (line_at show h) ls)).
Proof.
  induction ls as [|z ls IH] using rev_ind; intros first final nx fuel Hseg Hlen.
  - simpl in Hseg. destruct Hseg as [_ ->]. destruct fuel; reflexivity.
  - apply dlseg_snoc in Hseg as [-> (n & Hn & _ & Hseg)].
    rewrite length_app in Hlen. simpl in Hlen.
    destruct fuel as [|fuel]; [lia|]. simpl. rewrite Hn.
    rewrite (IH _ _ _ fuel Hseg) by lia. simpl.
    rewrite map_app, rev_app_distr. simpl.
    unfold line_at at 2. rewrite Hn. reflexivity.
Qed.

Lemma printList_is_list show l ls fuel :
  is_list l ls -> length ls <= fuel ->
  printList show fuel l = Some (rev (map (line_at show (nodes l)) ls)).
Proof. intros [Hseg _] Hlen. eapply printLoop_chain; eassumption. Qed.

(** *** The claims *)

(** C5. From a new list, every sequence of [addHead], [deleteHead] and
    [deleteTail] calls runs without an exception and ends in a well-formed
    list of some nodes [ls], the ones [printList] walks through; in it
    [head] is null iff [tail] is null, and both are null iff there is no
    node. *)
Theorem head_tail_null_iff_empty show (ops : list (op V)) :
  exists l ls,
    run ops new = Ok l /\ is_list l ls /\
    printList show (length ls) l = Some (rev (map (line_at show (nodes l)) ls)) /\
    (head l = None <-> tail l = None) /\
    (head l = None /\ tail l = None <-> ls = []).
Proof.
  destruct (run_step ops new [] is_list_new) as (l & ls & Hrun & Hl).
  exists l, ls. split; [exact Hrun|]. split; [exact Hl|].
  split; [apply printList_is_list; [exact Hl | lia]|].
  pose proof (is_list_head l ls Hl) as Hh.
  pose proof (is_list_tail l ls Hl) as Ht.
  split; [rewrite Hh, Ht; reflexivity | tauto].
Qed.

(** C6. [deleteTail] on a list of one node returns the node and sets
    [head] and [tail] to null.  On a list of two nodes or more it returns
    the old tail [z]; the new tail is [y], the node before [z]; [y.next]
    becomes null and nothing else changes in [y] or in any other node, so
    the list holds the nodes it held before, without [z]. *)
Theorem deleteTail_spec l :
  (forall x, is_list l [x] ->
     deleteTail l = Ok (Some x, {| nodes := nodes l; head := None; tail := None |})) /\
  (forall ls y z, is_list l (ls ++ [y; z]) ->
     exists yn zn l',
       deleteTail l = Ok (Some z, l') /\
       tail l = Some z /\ nodes l !! z = Some zn /\ prev zn = Some y /\
       nodes l !! y = Some yn /\
       tail l' = Some y /\ head l' = head l /\
       nodes l' !! y = Some (with_next yn None) /\
       (forall r, r <> y -> nodes l' !! r = nodes l !! r) /\
       is_list l' (ls ++ [y])).
Proof.
  split.
  - intros x Hl. apply (delete_single_step l x Hl).
  - intros ls y z Hl.
    destruct (deleteTail_many_step l ls y z Hl)
      as (yn & zn & Hy & Hz & Hp & _ & Ht & Hrun & Hl').
    exists yn, zn. eexists. split; [exact Hrun|]. simpl.
    repeat (split; [assumption || reflexivity|]).
    split; [apply lookup_insert_eq|]. split; [|exact Hl'].
    intros r Hr. apply lookup_insert_ne. congruence.
Qed.

(** C7. [addHead(value, key)] on a well-formed list returns a node that did
    not exist before; it is the new head, holds the value and the key, has
    a null [prev] and the old head as [next].  On an empty list it is the
    tail too; otherwise the tail stays and the [prev] of the old head is
    the new node.  No other node changes, and the list is well formed
    again, with the new node in front. *)
Theorem addHead_spec l ls v k :
  is_list l ls ->
  exists r l',
    addHead v k l = Ok (Some r, l') /\
    nodes l !! r = None /\
    head l' = Some r /\
    nodes l' !! r = Some {| next := head l; prev := None; value := v; key := k |} /\
    (ls = [] -> tail l' = Some r) /\
    (forall o, head l = Some o ->
       tail l' = tail l /\
       exists on, nodes l !! o = Some on /\
                  nodes l' !! o = Some (with_prev on (Some r))) /\
    (forall x, x <> r -> head l <> Some x -> nodes l' !! x = nodes l !! x) /\
    is_list l' (r :: ls).
Proof.
  intros Hl.
  destruct (addHead_step l ls v k Hl) as (r & l' & Hrun & Hnew & Hl' & Hh & Hr & He & Ho & Hx).
  exists r, l'. auto 10.
Qed.

(** C10. On an empty list (null [head] and [tail]) [deleteHead] and
    [deleteTail] return null without an exception and leave the list as it
    was. *)
Theorem delete_on_empty_returns_null (h : gmap positive (Node V)) :
  let l := {| nodes := h; head := None; tail := None |} in
  deleteHead l = Ok (None, l) /\ deleteTail l = Ok (None, l).
Proof. split; reflexivity. Qed.

End List.

(** *** The statements above on the list of three nodes *)

Example three_ends : head three = Some 3%positive /\ tail three = Some 1%positive.
Proof. split; reflexivity. Qed.

Example three_printList :
  printList (fun _ => "v"%string) 3 three
  = Some ["a: v"; "b: v"; "c: v"]%string.
Proof. reflexivity. Qed.

Lemma three_is_list : is_list three [3; 2; 1]%positive.
Proof.
  split.
  - simpl. split; [reflexivity|]. eexists. split; [reflexivity|].
    split; [reflexivity|]. split; [reflexivity|].
    eexists. split; [reflexivity|]. split; [reflexivity|]. split; [reflexivity|].
    eexists. split; [reflexivity|]. repeat split.
  - apply (bool_decide_unpack _). reflexivity.
Qed.

Lemma deleteTail_spec_witness :
  is_list three ([3%positive] ++ [2%positive; 1%positive]) /\
  exists l', deleteTail three = Ok (Some 1%positive, l') /\
             tail l' = Some 2%positive /\ is_list l' [3; 2]%positive.
Proof.
  split; [exact three_is_list|].
  destruct (deleteTail_spec Z three) as [_ Hmany].
  destruct (Hmany [3%positive] 2%positive 1%positive three_is_list)
    as (yn & zn & l' & Hrun & _ & _ & _ & _ & Ht & _ & _ & _ & Hl').
  exists l'. auto.
Defined.

Lemma addHead_spec_witness :
  is_list three [3; 2; 1]%positive /\
  exists r l', addHead 4%Z "d" three = Ok (Some r, l') /\
               head l' = Some r /\ is_list l' (r :: [3; 2; 1])%positive.
Proof.
  split; [exact three_is_list|].
  destruct (addHead_spec Z three [3; 2; 1]%positive 4%Z "d"%string three_is_list)
    as (r & l' & Hrun & _ & Hh & _ & _ & _ & _ & Hl').
  exists r, l'. auto.
Defined.

End DLLFacts.

(** * The list as a double-ended queue: properties *)

Module DequeFacts.
Import DLL Deque DLLFacts.

Local Open Scope nat_scope.

Section Deque.

Variable V : Type.
Implicit Types (h : gmap positive (Node V)) (l : DoublyLinkedList V)
  (ls : list positive).

Lemma contents_cons h x ls :
  contents h (x :: ls) =
  match read_node h x with
  | Some e => e :: contents h ls
  | None => contents h ls
  end.
Proof. reflexivity. Qed.

Lemma contents_ext h h' ls :
  (forall r, r ∈ ls -> read_node h' r = read_node h r) ->
  contents h' ls = contents h ls.
Proof.
  induction ls as [|x rest IH]; intros Hsame; [reflexivity|].
  rewrite !contents_cons. rewrite (Hsame x) by left.
  rewrite IH; [reflexivity|]. intros r Hr. apply Hsame. right. exact Hr.
Qed.

Lemma contents_app h ls ls' : contents h (ls ++ ls') = contents h ls ++ contents h ls'.
Proof. apply omap_app. Qed.

Lemma read_node_insert_other h x n r :
  r <> x -> read_node (<[x := n]> h) r = read_node h r.
Proof. intros Hne. unfold read_node. rewrite lookup_insert_ne by congruence. reflexivity. Qed.

Lemma read_node_with_prev h x n p r :
  h !! x = Some n -> read_node (<[x := with_prev n p]> h) r = read_node h r.
Proof.
  intros Hn. unfold read_node. destruct (decide (x = r)) as [->|Hne].
  - rewrite lookup_insert_eq, Hn. reflexivity.
  - rewrite lookup_insert_ne by exact Hne. reflexivity.
Qed.

Lemma read_node_with_next h x n p r :
  h !! x = Some n -> read_node (<[x := with_next n p]> h) r = read_node h r.
Proof.
  intros Hn. unfold read_node. destruct (decide (x = r)) as [->|Hne].
  - rewrite lookup_insert_eq, Hn. reflexivity.
  - rewrite lookup_insert_ne by exact Hne. reflexivity.
Qed.

Lemma read_node_Some h r n : h !! r = Some n -> read_node h r = Some (key n, value n).
Proof. intros Hn. unfold read_node. rewrite Hn. reflexivity. Qed.

Lemma contents_with_prev h x n p ls :
  h !! x = Some n -> contents (<[x := with_prev n p]> h) ls = contents h ls.
Proof. intros Hn. apply contents_ext. intros r _. apply read_node_with_prev. exact Hn. Qed.

Lemma contents_with_next h x n p ls :
  h !! x = Some n -> contents (<[x := with_next n p]> h) ls = contents h ls.
Proof. intros Hn. apply contents_ext. intros r _. apply read_node_with_next. exact Hn. Qed.

Lemma contents_single h r n : h !! r = Some n -> contents h [r] = [(key n, value n)].
Proof. intros Hn. rewrite contents_cons, (read_node_Some _ _ _ Hn). reflexivity. Qed.

(** One call, against the plain sequence. *)
Lemma do_op_refines l ls o :
  is_list l ls ->
  exists res l' ls',
    do_op o l = Ok (res, l') /\ is_list l' ls' /\
    read l' res = fst (seq_op o (contents (nodes l) ls)) /\
    contents (nodes l') ls' = snd (seq_op o (contents (nodes l) ls)).
Proof.
  intros Hl. destruct o as [v k| |]; unfold do_op, seq_op, fst, snd.
  - destruct (addHead_step _ l ls v k Hl)
      as (r & l' & Hrun & Hnew & Hl' & Hh & Hr & _ & Ho & Hx).
    exists (Some r), l', (r :: ls). split; [exact Hrun|]. split; [exact Hl'|].
    assert (Hread : read_node (nodes l') r = Some (k, v)).
    { rewrite (read_node_Some _ _ _ Hr). reflexivity. }
    split; [exact Hread|].
    rewrite contents_cons, Hread. f_equal.
    apply contents_ext. intros x Hx'.
    assert (Hxr : x <> r).
    { intros ->. destruct Hl as [Hseg _].
      destruct (dlseg_lookup _ _ _ _ _ _ _ _ Hseg Hx') as [? Hsome]. congruence. }
    destruct (decide (head l = Some x)) as [Hhx|Hhx].
    + destruct (Ho x Hhx) as (_ & on & Hon & Hon').
      rewrite (read_node_Some _ _ _ Hon), (read_node_Some _ _ _ Hon'). reflexivity.
    + unfold read_node. rewrite (Hx x Hxr Hhx). reflexivity.
  - destruct ls as [|a [|b rest]].
    + destruct (delete_empty_step _ l Hl) as [_ Hrun].
      exists None, l, []. auto.
    + destruct (delete_single_step _ l a Hl) as (_ & Hrun & Hl').
      eexists _, _, []. split; [exact Hrun|]. split; [exact Hl'|].
      destruct Hl as [Hseg _]. simpl in Hseg.
      destruct Hseg as (_ & n & Hn & _).
      rewrite (contents_single _ _ _ Hn). unfold read. cbn [nodes].
      rewrite (read_node_Some _ _ _ Hn). auto.
    + destruct (deleteHead_many_step _ l a b rest Hl)
        as (an & bn & Han & Hbn & _ & _ & _ & Hrun & Hl').
      eexists _, _, (b :: rest). split; [exact Hrun|]. split; [exact Hl'|].
      unfold read. cbn [nodes].
      rewrite (read_node_with_prev _ _ _ _ _ Hbn), (contents_with_prev _ _ _ _ _ Hbn).
      rewrite (contents_cons _ a), (read_node_Some _ _ _ Han). auto.
  - destruct ls as [|z ls _] using rev_ind.
    + destruct (delete_empty_step _ l Hl) as [Hrun _].
      exists None, l, []. auto.
    + destruct ls as [|y ls _] using rev_ind.
      * destruct (delete_single_step _ l z Hl) as (Hrun & _ & Hl').
        eexists _, _, []. split; [exact Hrun|]. split; [exact Hl'|].
        destruct Hl as [Hseg _]. simpl in Hseg.
        destruct Hseg as (_ & n & Hn & _).
        rewrite app_nil_l, (contents_single _ _ _ Hn). unfold read. cbn [nodes].
        rewrite (read_node_Some _ _ _ Hn). auto.
      * rewrite <- app_assoc in Hl. simpl in Hl.
        destruct (deleteTail_many_step _ l ls y z Hl)
          as (yn & zn & Hyn & Hzn & _ & _ & _ & Hrun & Hl').
        eexists _, _, (ls ++ [y]). split; [exact Hrun|]. split; [exact Hl'|].
        unfold read. cbn [nodes].
        rewrite (read_node_with_next _ _ _ _ _ Hyn), (contents_with_next _ _ _ _ _ Hyn).
        rewrite !contents_app, (contents_single _ _ _ Hyn), (contents_single _ _ _ Hzn).
        rewrite last_snoc, removelast_last, (read_node_Some _ _ _ Hzn). auto.
Qed.

Lemma run_log_refines ops : forall l ls,
  is_list l ls ->
  exists l' ls',
    run_log ops l = Ok (fst (seq_run ops (contents (nodes l) ls)), l') /\
    is_list l' ls' /\
    contents (nodes l') ls' = snd (seq_run ops (contents (nodes l) ls)).
Proof.
  induction ops as [|o rest IH]; intros l ls Hl.
  - exists l, ls. auto.
  - destruct (do_op_refines l ls o Hl) as (res & l1 & ls1 & Hrun & Hl1 & Hres & Hq).
    destruct (IH l1 ls1 Hl1) as (l2 & ls2 & Hrun2 & Hl2 & Hq2).
    exists l2, ls2. simpl. rewrite Hrun, Hrun2, Hres.
    destruct (seq_op o (contents (nodes l) ls)) as [r q] eqn:Hop.
    simpl in Hq. rewrite Hq in *.
    destruct (seq_run rest q) as [log q'] eqn:Hrest. simpl in *. auto.
Qed.

(** [run] is [run_log] without the log. *)
Lemma run_log_run ops : forall l log l',
  run_log ops l = Ok (log, l') -> run ops l = Ok l'.
Proof.
  induction ops as [|o rest IH]; intros l log l'; simpl.
  - intros H. injection H as _ <-. reflexivity.
  - destruct (do_op o l) as [[r l1]|e]; [|discriminate].
    destruct (run_log rest l1) as [[log1 l2]|e] eqn:Hrest; [|discriminate].
    intros H. injection H as _ <-. eapply IH. exact Hrest.
Qed.

(** *** The plain sequence *)

Lemma seq_run_app (a b : list (op V)) q :
  seq_run (a ++ b) q =
  (fst (seq_run a q) ++ fst (seq_run b (snd (seq_run a q))),
   snd (seq_run b (snd (seq_run a q)))).
Proof.
  revert q. induction a as [|o a IH]; intros q; simpl.
  - destruct (seq_run b q). reflexivity.
  - destruct (seq_op o q) as [r q1]. rewrite IH.
    destruct (seq_run a q1) as [log q2]. simpl.
    destruct (seq_run b q2). reflexivity.
Qed.

Lemma seq_run_adds (es : list (entry V)) q :
  seq_run (adds es) q = (map Some es, rev es ++ q).
Proof.
  revert q. induction es as [|[k v] es IH]; intros q; simpl; [reflexivity|].
  rewrite IH. rewrite <- app_assoc. reflexivity.
Qed.

Lemma seq_run_deleteTails (es : list (entry V)) :
  seq_run (repeat DeleteTail (length es)) (rev es) = (map Some es, []).
Proof.
  induction es as [|e es IH]; [reflexivity|].
  simpl. rewrite last_snoc, removelast_last, IH. reflexivity.
Qed.

Lemma seq_run_deleteHeads (q : list (entry V)) :
  seq_run (repeat DeleteHead (length q)) q = (map Some q, []).
Proof.
  induction q as [|e q IH]; [reflexivity|].
  simpl. rewrite IH. reflexivity.
Qed.

Lemma seq_run_length (ops : list (op V)) : forall q,
  length (snd (seq_run ops q)) <= length q + length ops.
Proof.
  induction ops as [|o ops IH]; intros q; simpl; [lia|].
  destruct (seq_op o q) as [r q1] eqn:Hop.
  specialize (IH q1). destruct (seq_run ops q1) as [log q2]. simpl in *.
  assert (length q1 <= S (length q)); [|lia].
  destruct o; simpl in Hop; injection Hop as _ <-; simpl.
  - lia.
  - destruct q; simpl; lia.
  - destruct q as [|e q _] using rev_ind; [simpl; lia|].
    rewrite removelast_last, length_app. lia.
Qed.

(** *** The list against the plain sequence *)

(** X1. A new list after any calls: every call returned what the same call
    returns on a plain sequence, and the list holds the entries the sequence
    holds, front first. *)
Theorem deque_refinement (ops : list (op V)) :
  exists l ls,
    run_log ops new = Ok (fst (seq_run ops []), l) /\
    is_list l ls /\
    contents (nodes l) ls = snd (seq_run ops []).
Proof. exact (run_log_refines ops new [] (is_list_new V)). Qed.

(** X2. First in, first out: after [addHead] of the entries [es], as many
    [deleteTail] calls return them in the order they were added, and the
    list is empty again. *)
Theorem deleteTail_fifo (es : list (entry V)) :
  exists l,
    run_log (adds es ++ repeat DeleteTail (length es)) new
    = Ok (map Some es ++ map Some es, l) /\
    head l = None /\ tail l = None.
Proof.
  destruct (run_log_refines (adds es ++ repeat DeleteTail (length es)) new []
              (is_list_new V))
    as (l & ls & Hrun & Hl & Hq).
  change (contents (nodes new) []) with (@nil (entry V)) in *.
  rewrite seq_run_app, seq_run_adds in *. simpl in *.
  rewrite app_nil_r, seq_run_deleteTails in *. simpl in *.
  exists l. split; [exact Hrun|].
  assert (Hls : ls = []).
  { destruct ls as [|x rest]; [reflexivity|]. exfalso.
    destruct Hl as [Hseg _]. simpl in Hseg. destruct Hseg as (_ & n & Hn & _).
    rewrite contents_cons, (read_node_Some _ _ _ Hn) in Hq. discriminate. }
  subst ls. apply is_list_nil in Hl. exact Hl.
Qed.

(** X3. Last in, first out: [deleteHead] returns them in the reverse order. *)
Theorem deleteHead_lifo (es : list (entry V)) :
  exists l,
    run_log (adds es ++ repeat DeleteHead (length es)) new
    = Ok (map Some es ++ map Some (rev es), l) /\
    head l = None /\ tail l = None.
Proof.
  destruct (run_log_refines (adds es ++ repeat DeleteHead (length es)) new []
              (is_list_new V))
    as (l & ls & Hrun & Hl & Hq).
  change (contents (nodes new) []) with (@nil (entry V)) in *.
  rewrite seq_run_app, seq_run_adds in *. simpl in *.
  pose proof (seq_run_deleteHeads (rev es)) as Hs. rewrite length_rev in Hs.
  rewrite app_nil_r, Hs in *. simpl in *.
  exists l. split; [exact Hrun|].
  assert (Hls : ls = []).
  { destruct ls as [|x rest]; [reflexivity|]. exfalso.
    destruct Hl as [Hseg _]. simpl in Hseg. destruct Hseg as (_ & n & Hn & _).
    rewrite contents_cons, (read_node_Some _ _ _ Hn) in Hq. discriminate. }
  subst ls. apply is_list_nil in Hl. exact Hl.
Qed.

(** *** [deleteHead], [addHead] undone *)

(** X4. [deleteHead] on a list of one node returns the node and sets [head] and
    [tail] to null.  On a list of two nodes or more it returns the old head
    [a]; the new head is [b], the node after [a]; [b.prev] becomes null and
    nothing else changes in [b] or in any other node; the tail stays. *)
Theorem deleteHead_spec l :
  (forall x, is_list l [x] ->
     deleteHead l = Ok (Some x, {| nodes := nodes l; head := None; tail := None |})) /\
  (forall a b rest, is_list l (a :: b :: rest) ->
     exists an bn l',
       deleteHead l = Ok (Some a, l') /\
       head l = Some a /\ nodes l !! a = Some an /\ next an = Some b /\
       nodes l !! b = Some bn /\
       head l' = Some b /\ tail l' = tail l /\
       nodes l' !! b = Some (with_prev bn None) /\
       (forall r, r <> b -> nodes l' !! r = nodes l !! r) /\
       is_list l' (b :: rest)).
Proof.
  split.
  - intros x Hl. apply (delete_single_step _ l x Hl).
  - intros a b rest Hl.
    destruct (deleteHead_many_step _ l a b rest Hl)
      as (an & bn & Ha & Hb & Hn & _ & Hh & Hrun & Hl').
    exists an, bn. eexists. split; [exact Hrun|]. simpl.
    repeat (split; [assumption || reflexivity|]).
    split; [apply lookup_insert_eq|]. split; [|exact Hl'].
    intros r Hr. apply lookup_insert_ne. congruence.
Qed.

Lemma with_prev_back (n : Node V) p : with_prev (with_prev n p) (prev n) = n.
Proof. destruct n. reflexivity. Qed.

(** X5. [addHead] and then [deleteHead] on a well-formed list: the second call
    returns the node the first one made, [head] and [tail] are what they
    were, every node that existed is what it was, and the list holds the
    nodes it held. *)
Theorem addHead_deleteHead_restores l ls v k :
  is_list l ls ->
  exists r l1 l2,
    addHead v k l = Ok (Some r, l1) /\
    deleteHead l1 = Ok (Some r, l2) /\
    head l2 = head l /\ tail l2 = tail l /\
    (forall x, x <> r -> nodes l2 !! x = nodes l !! x) /\
    is_list l2 ls.
Proof.
  intros Hl.
  destruct (addHead_step _ l ls v k Hl)
    as (r & l1 & Hadd & Hnew & Hl1 & Hh1 & Hr & He & Ho & Hx).
  exists r, l1.
  destruct ls as [|o rest].
  - apply is_list_nil in Hl as [Hh Ht].
    destruct (delete_single_step _ l1 r Hl1) as (_ & Hdel & Hl2).
    eexists. split; [exact Hadd|]. split; [exact Hdel|]. simpl.
    rewrite Hh, Ht. split; [reflexivity|]. split; [reflexivity|].
    split; [|exact Hl2].
    intros x Hxr. apply Hx; [exact Hxr | congruence].
  - destruct (deleteHead_many_step _ l1 r o rest Hl1)
      as (rn & bn & _ & Hbn & _ & _ & _ & Hdel & Hl2).
    destruct Hl as [Hseg Hnd]. simpl in Hseg.
    destruct Hseg as (Hh & on & Hon & Hprev & _).
    destruct (Ho o Hh) as (Ht & on' & Hon' & Hbn').
    assert (on' = on) by congruence. subst on'.
    assert (bn = with_prev on (Some r)) by congruence. subst bn.
    eexists. split; [exact Hadd|]. split; [exact Hdel|]. simpl.
    split; [congruence|]. split; [exact Ht|]. split; [|exact Hl2].
    intros x Hxr. destruct (decide (x = o)) as [->|Hxo].
    + rewrite lookup_insert_eq, Hon. f_equal.
      rewrite <- Hprev. apply with_prev_back.
    + rewrite lookup_insert_ne by congruence. apply Hx; [exact Hxr | congruence].
Qed.

(** *** Nodes are kept *)

(** Whatever the list was, a call that returns leaves every node that
    existed in the store, with its key and its value. *)
Lemma do_op_keeps_entries (o : op V) l res l' r :
  do_op o l = Ok (res, l') ->
  is_Some (nodes l !! r) ->
  read_node (nodes l') r = read_node (nodes l) r.
Proof.
  intros Hrun [n Hn].
  assert (Hfresh : r <> fresh (dom (nodes l))).
  { intros ->. rewrite fresh_not_allocated in Hn. discriminate. }
  destruct o as [v k| |]; simpl in Hrun.
  - unfold addHead, seq, get_head, get_tail, new_Node, set_head, set_tail, deref, store
      in Hrun. simpl in Hrun.
    destruct (tail l) as [t|]; simpl in Hrun.
    + rewrite lookup_insert_eq in Hrun. simpl in Hrun.
      destruct (head l) as [o|]; [|discriminate].
      destruct (_ !! o) as [on|] eqn:Hon; [|discriminate].
      injection Hrun as _ <-. simpl.
      rewrite (read_node_with_prev _ _ _ _ _ Hon).
      apply read_node_insert_other. exact Hfresh.
    + injection Hrun as _ <-. simpl. apply read_node_insert_other. exact Hfresh.
  - unfold deleteHead, seq, get_head, get_tail, set_head, set_tail, deref, store, ret
      in Hrun. simpl in Hrun.
    destruct (decide (head l = tail l)).
    + injection Hrun as _ <-. reflexivity.
    + destruct (head l) as [a|]; [|discriminate].
      destruct (nodes l !! a) as [an|]; [|discriminate]. simpl in Hrun.
      destruct (next an) as [b|]; [|discriminate].
      destruct (nodes l !! b) as [bn|] eqn:Hbn; [|discriminate].
      injection Hrun as _ <-. simpl. apply read_node_with_prev. exact Hbn.
  - unfold deleteTail, seq, get_head, get_tail, set_head, set_tail, deref, store, ret
      in Hrun. simpl in Hrun.
    destruct (decide (head l = tail l)).
    + injection Hrun as _ <-. reflexivity.
    + destruct (tail l) as [z|]; [|discriminate].
      destruct (nodes l !! z) as [zn|]; [|discriminate]. simpl in Hrun.
      destruct (prev zn) as [y|]; [|discriminate].
      destruct (nodes l !! y) as [yn|] eqn:Hyn; [|discriminate].
      injection Hrun as _ <-. simpl. apply read_node_with_next. exact Hyn.
Qed.

(** X6. A node, once made, stays in the store with its key and its value
    through any calls that return, whatever the list was. *)
Theorem run_keeps_entries (ops : list (op V)) : forall l l' r,
  run ops l = Ok l' ->
  is_Some (nodes l !! r) ->
  is_Some (nodes l' !! r) /\ read_node (nodes l') r = read_node (nodes l) r.
Proof.
  induction ops as [|o rest IH]; intros l l' r Hrun Hr; simpl in Hrun.
  - injection Hrun as <-. auto.
  - destruct (do_op o l) as [[res l1]|e] eqn:Hop; [|discriminate].
    pose proof (do_op_keeps_entries o l res l1 r Hop Hr) as H1.
    assert (Hr1 : is_Some (nodes l1 !! r)).
    { destruct Hr as [n Hn]. unfold read_node in H1. rewrite Hn in H1.
      destruct (nodes l1 !! r); [eauto | discriminate]. }
    destruct (IH l1 l' r Hrun Hr1) as [H2 H3]. split; [exact H2 | congruence].
Qed.

(** *** [printList] after any calls *)

Lemma line_at_contents show h ls :
  (forall r, r ∈ ls -> is_Some (h !! r)) ->
  map (line_at show h) ls
  = map (fun e => fst e ++ ": " ++ show (snd e))%string (contents h ls).
Proof.
  induction ls as [|x rest IH]; intros Hall; [reflexivity|].
  destruct (Hall x) as [n Hn]; [left|].
  rewrite contents_cons, (read_node_Some _ _ _ Hn). simpl.
  unfold line_at at 1. rewrite Hn. unfold line. simpl. f_equal.
  apply IH. intros r Hr. apply Hall. right. exact Hr.
Qed.

(** X7. On a new list after any calls, the loop of [printList] ends within as
    many rounds as there were calls, and it logs one line for each entry the
    list holds, the oldest first. *)
Theorem printList_after_run show (ops : list (op V)) :
  exists l,
    run ops new = Ok l /\
    printList show (length ops) l
    = Some (rev (map (fun e => fst e ++ ": " ++ show (snd e))%string
                     (snd (seq_run ops [])))).
Proof.
  destruct (run_log_refines ops new [] (is_list_new V)) as (l & ls & Hrun & Hl & Hq).
  change (contents (nodes new) []) with (@nil (entry V)) in *.
  exists l. split; [eapply run_log_run; exact Hrun|].
  assert (Hlen : length ls <= length ops).
  { pose proof (seq_run_length ops []) as Hb. rewrite <- Hq in Hb. simpl in Hb.
    assert (length (contents (nodes l) ls) = length ls); [|lia].
    destruct Hl as [Hseg _]. clear Hb Hq Hrun.
    assert (Hall : forall r, r ∈ ls -> is_Some (nodes l !! r))
      by (intros r Hr; eapply dlseg_lookup; eauto).
    clear Hseg. induction ls as [|x rest IH]; [reflexivity|].
    destruct (Hall x) as [n Hn]; [left|].
    rewrite contents_cons, (read_node_Some _ _ _ Hn). simpl. f_equal.
    apply IH. intros r Hr. apply Hall. right. exact Hr. }
  rewrite (printList_is_list _ show l ls (length ops) Hl Hlen).
  rewrite line_at_contents, Hq; [reflexivity|].
  destruct Hl as [Hseg _]. intros r Hr. eapply dlseg_lookup; eauto.
Qed.

End Deque.

(** *** The statements above on the list of three nodes *)

Lemma deleteHead_spec_witness :
  is_list three [3; 2; 1]%positive /\
  exists l', deleteHead three = Ok (Some 3%positive, l') /\
             head l' = Some 2%positive /\ is_list l' [2; 1]%positive.
Proof.
  split; [exact three_is_list|].
  destruct (deleteHead_spec Z three) as [_ Hmany].
  destruct (Hmany 3%positive 2%positive [1%positive] three_is_list)
    as (an & bn & l' & Hrun & _ & _ & _ & _ & Hh & _ & _ & _ & Hl').
  exists l'. auto.
Defined.

Lemma addHead_deleteHead_restores_witness :
  is_list three [3; 2; 1]%positive /\
  exists r l1 l2,
    addHead 4%Z "d" three = Ok (Some r, l1) /\
    deleteHead l1 = Ok (Some r, l2) /\
    head l2 = head three /\ tail l2 = tail three /\ is_list l2 [3; 2; 1]%positive.
Proof.
  split; [exact three_is_list|].
  destruct (addHead_deleteHead_restores Z three [3; 2; 1]%positive 4%Z "d"%string
              three_is_list)
    as (r & l1 & l2 & Hadd & Hdel & Hh & Ht & _ & Hl2).
  exists r, l1, l2. auto.
Defined.

Lemma run_keeps_entries_witness :
  match run [DeleteTail; DeleteTail; AddHead 5%Z "e"] three with
  | Ok l' =>
      is_Some (nodes l' !! 1%positive) /\
      read_node (nodes l') 1%positive = read_node (nodes three) 1%positive
  | Throw _ => False
  end.
Proof.
  destruct (run [DeleteTail; DeleteTail; AddHead 5%Z "e"] three) as [l'|e] eqn:Hrun.
  - apply (run_keeps_entries Z _ three l' 1%positive Hrun).
    eexists. vm_compute. reflexivity.
  - vm_compute in Hrun. discriminate Hrun.
Defined.

End DequeFacts.

(** * Well-formed TTL strings: properties *)

Module TtlFacts.
Import Zoic Ttl.

Local Open Scope string_scope.

(** *** Exact numbers *)

Lemma Qred_inject_Z z : Qred (inject_Z z) = inject_Z z.
Proof.
  unfold Qred, inject_Z.
  pose proof (Z.ggcd_gcd z 1) as Hg.
  pose proof (Z.ggcd_correct_divisors z 1) as Hd.
  destruct (Z.ggcd z 1) as [g [n d]]. simpl in *.
  rewrite Z.gcd_1_r in Hg. subst g. destruct Hd as [Hn Hd].
  rewrite Z.mul_1_l in Hn, Hd. subst z d. reflexivity.
Qed.

Lemma add_of_Z a b : add (of_Z a) (of_Z b) = of_Z (a + b).
Proof.
  unfold add, of_Z. f_equal. rewrite <- (Qred_inject_Z (a + b)).
  apply Qred_complete. rewrite inject_Z_plus. reflexivity.
Qed.

Lemma mul_of_Z a b : mul (of_Z a) (of_Z b) = of_Z (a * b).
Proof.
  unfold mul, of_Z. f_equal. rewrite <- (Qred_inject_Z (a * b)).
  apply Qred_complete. rewrite inject_Z_mult. reflexivity.
Qed.

Lemma gt_of_Z a b : gt (of_Z a) (of_Z b) = negb (a <=? b)%Z.
Proof.
  unfold gt, of_Z. f_equal.
  destruct (Z.leb_spec a b) as [H|H].
  - apply Qle_bool_iff. rewrite <- Zle_Qle. exact H.
  - destruct (Qle_bool (inject_Z a) (inject_Z b)) eqn:Hq; [|reflexivity].
    apply Qle_bool_iff in Hq. rewrite <- Zle_Qle in Hq. lia.
Qed.

(** *** Decimal digits *)

Lemma digits_step c r acc d :
  Str.digit_value 10 c = Some d ->
  Str.digits 10 (Some acc) (String c r) = Str.digits 10 (Some (10 * acc + d)%Z) r.
Proof. intros H. simpl. rewrite H. reflexivity. Qed.

Lemma digits_uint d : forall a,
  Str.digits 10 (Some (Z.of_N (DecimalPos.Unsigned.of_lu a)))
             (DecimalString.NilEmpty.string_of_uint d)
  = Some (Z.of_N (DecimalPos.Unsigned.of_lu (Decimal.revapp d a))).
Proof.
  induction d as [|d IH|d IH|d IH|d IH|d IH|d IH|d IH|d IH|d IH|d IH]; intros a;
    [reflexivity|..];
    cbn [DecimalString.NilEmpty.string_of_uint Decimal.revapp];
    rewrite <- IH;
    erewrite digits_step by reflexivity;
    do 2 f_equal; cbn [DecimalPos.Unsigned.of_lu];
    generalize (DecimalPos.Unsigned.of_lu a); intros x;
    simpl (N_of_ascii _); lia.
Qed.

Lemma digits_from_zero d :
  d <> Decimal.Nil ->
  Str.digits 10 None (DecimalString.NilEmpty.string_of_uint d)
  = Str.digits 10 (Some 0%Z) (DecimalString.NilEmpty.string_of_uint d).
Proof. destruct d; [congruence | reflexivity..]. Qed.

Lemma parseInt_uint d :
  Str.parseInt (DecimalString.NilEmpty.string_of_uint d)
  = match Str.digits 10 None (DecimalString.NilEmpty.string_of_uint d) with
    | None => NaN
    | Some m => of_Z (1 * m)
    end.
Proof.
  destruct d as [|d|d|d|d|d|d|d|d|d|d]; try reflexivity.
  destruct d; reflexivity.
Qed.

Lemma to_uint_nonnil n : N.to_uint n <> Decimal.Nil.
Proof.
  destruct n as [|p]; [discriminate|]. apply DecimalPos.Unsigned.to_uint_nonnil.
Qed.

Lemma decimal_eq n :
  decimal n = DecimalString.NilEmpty.string_of_uint (N.to_uint n).
Proof.
  unfold decimal, DecimalString.NilZero.string_of_uint.
  pose proof (to_uint_nonnil n). destruct (N.to_uint n); [congruence | reflexivity..].
Qed.

(** [parseInt] reads a number written in decimal digits back. *)
Lemma parseInt_decimal n : Str.parseInt (decimal n) = of_Z (Z.of_N n).
Proof.
  rewrite decimal_eq, parseInt_uint.
  rewrite digits_from_zero by apply to_uint_nonnil.
  change 0%Z with (Z.of_N (DecimalPos.Unsigned.of_lu Decimal.Nil)).
  rewrite digits_uint. fold (Decimal.rev (N.to_uint n)).
  rewrite <- DecimalPos.Unsigned.of_uint_alt.
  change (Pos.of_uint (N.to_uint n)) with (N.of_uint (N.to_uint n)).
  rewrite DecimalN.Unsigned.of_to, Z.mul_1_l. reflexivity.
Qed.

(** *** Code units *)

Lemma all_chars_app P a b : all_chars P (a ++ b) = all_chars P a && all_chars P b.
Proof.
  induction a as [|c a IH]; simpl; [reflexivity|]. rewrite IH. apply andb_assoc.
Qed.

Lemma all_chars_impl (P Q : ascii -> bool) s :
  (forall c, P c = true -> Q c = true) -> all_chars P s = true -> all_chars Q s = true.
Proof.
  intros HPQ. induction s as [|c s IH]; simpl; [reflexivity|].
  intros H. apply andb_true_iff in H as [Hc Hs]. rewrite (HPQ c Hc), (IH Hs). reflexivity.
Qed.

Lemma digit_plain c : is_digit c = true -> not_white c = true /\ not_comma c = true.
Proof.
  destruct c as [[] [] [] [] [] [] [] []]; vm_compute; intros H;
    first [discriminate H | split; reflexivity].
Qed.

Lemma uint_digits d : all_chars is_digit (DecimalString.NilEmpty.string_of_uint d) = true.
Proof. induction d; simpl; auto. Qed.

Lemma decimal_digits n : all_chars is_digit (decimal n) = true.
Proof. rewrite decimal_eq. apply uint_digits. Qed.

Lemma decimal_nonempty n : Str.truthy (decimal n) = true.
Proof.
  rewrite decimal_eq. pose proof (to_uint_nonnil n).
  destruct (N.to_uint n); [congruence | reflexivity..].
Qed.

Lemma element_not_white it : all_chars not_white (element it) = true.
Proof.
  unfold element. rewrite all_chars_app. apply andb_true_iff. split.
  - eapply all_chars_impl; [|apply decimal_digits]. intros c Hc. apply digit_plain, Hc.
  - destruct (snd it); reflexivity.
Qed.

Lemma element_not_comma it : all_chars not_comma (element it) = true.
Proof.
  unfold element. rewrite all_chars_app. apply andb_true_iff. split.
  - eapply all_chars_impl; [|apply decimal_digits]. intros c Hc. apply digit_plain, Hc.
  - destruct (snd it); reflexivity.
Qed.

Lemma truthy_app a b : Str.truthy a = true -> Str.truthy (a ++ b) = true.
Proof. destruct a; [discriminate | reflexivity]. Qed.

Lemma element_nonempty it : Str.truthy (element it) = true.
Proof. apply truthy_app, decimal_nonempty. Qed.

(** *** [trim], [split], the last code unit *)

Lemma trimStart_not_white s : all_chars not_white s = true -> Str.trimStart s = s.
Proof.
  destruct s as [|c s]; [reflexivity|]. simpl. unfold not_white.
  intros H. apply andb_true_iff in H as [Hc _].
  destruct (Str.is_white c); [discriminate | reflexivity].
Qed.

Lemma split_not_comma s : all_chars not_comma s = true -> Str.split "," s = [s].
Proof.
  induction s as [|c s IH]; [reflexivity|]. simpl. unfold not_comma at 1.
  intros H. apply andb_true_iff in H as [Hc Hs]. rewrite (IH Hs).
  destruct (Ascii.eqb c ","); [discriminate | reflexivity].
Qed.

Lemma split_app_comma a b :
  all_chars not_comma a = true ->
  Str.split "," (a ++ String "," b) = a :: Str.split "," b.
Proof.
  induction a as [|c a IH]; [reflexivity|]. simpl. unfold not_comma at 1.
  intros H. apply andb_true_iff in H as [Hc Ha]. rewrite (IH Ha).
  destruct (Ascii.eqb c ","); [discriminate | reflexivity].
Qed.

Lemma split_concat xs :
  xs <> [] -> Forall (fun x => all_chars not_comma x = true) xs ->
  Str.split "," (String.concat "," xs) = xs.
Proof.
  induction xs as [|x xs IH]; [congruence|]. intros _ Hall.
  inversion Hall as [|? ? Hx Hxs]; subst.
  destruct xs as [|y ys]; [apply split_not_comma, Hx|].
  change (String.concat "," (x :: y :: ys))
    with (x ++ String "," (String.concat "," (y :: ys))).
  rewrite (split_app_comma _ _ Hx), IH; [reflexivity | discriminate | exact Hxs].
Qed.

Lemma last_char_snoc s c : Str.last_char (s ++ String c "") = Some c.
Proof.
  induction s as [|c' s IH]; [reflexivity|]. simpl. rewrite IH.
  destruct (s ++ String c "") eqn:E; [|reflexivity]. destruct s; discriminate.
Qed.

Lemma slice_snoc s c : Str.slice_0_m1 (s ++ String c "") = s.
Proof.
  induction s as [|c' s IH]; [reflexivity|]. simpl. rewrite IH.
  destruct (s ++ String c "") eqn:E; [|reflexivity]. destruct s; discriminate.
Qed.

(** *** The sum of a well-formed string *)

Lemma letter_single u : exists c, letter u = String c "" /\
  (c = "h" \/ c = "m" \/ c = "s")%char.
Proof. destruct u; eexists; (split; [reflexivity|]); auto. Qed.

Lemma addUnit_element z it :
  addUnit (of_Z z) (element it)
  = Ok (of_Z (z + Z.of_N (fst it) * seconds_in (snd it))).
Proof.
  unfold addUnit, element. destruct it as [n u]. simpl fst. simpl snd.
  destruct u; simpl letter; rewrite last_char_snoc, slice_snoc, parseInt_decimal;
    simpl seconds_in.
  - rewrite decide_True by reflexivity. rewrite mul_of_Z, add_of_Z. reflexivity.
  - rewrite decide_False by discriminate. rewrite decide_True by reflexivity.
    rewrite mul_of_Z, add_of_Z. reflexivity.
  - rewrite !decide_False by discriminate. rewrite decide_True by reflexivity.
    rewrite add_of_Z, Z.mul_1_r. reflexivity.
Qed.

Lemma total_nonneg its : (0 <= total its)%Z.
Proof.
  induction its as [|[n u] its IH]; simpl; [lia|].
  assert (0 <= seconds_in u)%Z by (destruct u; simpl; lia). nia.
Qed.

(** *** Spaces in front of the elements *)

Lemma string_app_assoc (a b c : string) : (a ++ b) ++ c = a ++ (b ++ c).
Proof.
  induction a as [|x a IH]; [reflexivity|].
  change (String x ((a ++ b) ++ c) = String x (a ++ (b ++ c))). rewrite IH. reflexivity.
Qed.

Lemma trimStart_spaces k s : Str.trimStart (spaces k ++ s) = Str.trimStart s.
Proof. induction k as [|k IH]; [reflexivity|]. simpl. exact IH. Qed.

Lemma parseInt_spaces k s : Str.parseInt (spaces k ++ s) = Str.parseInt s.
Proof. unfold Str.parseInt. rewrite trimStart_spaces. reflexivity. Qed.

Lemma addUnit_padded z p :
  addUnit (of_Z z) (padded p)
  = Ok (of_Z (z + Z.of_N (fst (snd p)) * seconds_in (snd (snd p)))).
Proof.
  rewrite <- (addUnit_element z (snd p)).
  unfold addUnit, padded, element. destruct p as [k [n u]]. simpl fst. simpl snd.
  destruct (letter_single u) as (c & -> & _).
  rewrite <- string_app_assoc, !last_char_snoc, !slice_snoc, parseInt_spaces.
  reflexivity.
Qed.

Lemma reduce_padded its : forall z,
  reduce addUnit (map padded its) (of_Z z) = Ok (of_Z (z + total (map snd its))).
Proof.
  induction its as [|it its IH]; intros z; simpl.
  - rewrite Z.add_0_r. reflexivity.
  - rewrite addUnit_padded. simpl. rewrite IH. do 2 f_equal. lia.
Qed.

Lemma spaces_not_comma k : all_chars not_comma (spaces k) = true.
Proof. induction k; simpl; auto. Qed.

Lemma padded_not_comma p : all_chars not_comma (padded p) = true.
Proof.
  unfold padded. rewrite all_chars_app, spaces_not_comma, element_not_comma. reflexivity.
Qed.

Lemma trimEnd_last s c :
  Str.last_char s = Some c -> Str.is_white c = false -> Str.trimEnd s = s.
Proof.
  induction s as [|x s IH]; [discriminate|]. intros Hlast Hc.
  destruct s as [|y s'].
  - injection Hlast as ->. simpl. rewrite Hc. reflexivity.
  - change (Str.last_char (String x (String y s'))) with (Str.last_char (String y s'))
      in Hlast.
    change (Str.trimEnd (String x (String y s')))
      with (match Str.trimEnd (String y s') with
            | EmptyString => if Str.is_white x then EmptyString else String x EmptyString
            | r' => String x r'
            end).
    rewrite (IH Hlast Hc). reflexivity.
Qed.

Lemma last_char_app a b :
  Str.truthy b = true -> Str.last_char (a ++ b) = Str.last_char b.
Proof.
  intros Hb. induction a as [|x a IH]; [reflexivity|]. simpl. rewrite IH.
  destruct (a ++ b) eqn:E; [|reflexivity].
  destruct a; [|discriminate]. change (b = EmptyString) in E. rewrite E in Hb. discriminate.
Qed.

Lemma padded_last p :
  exists c, Str.last_char (padded p) = Some c /\ Str.is_white c = false.
Proof.
  unfold padded, element. destruct p as [k [n u]]. simpl fst. simpl snd.
  destruct (letter_single u) as (c & -> & Hc).
  exists c. rewrite <- string_app_assoc, last_char_snoc. split; [reflexivity|].
  destruct Hc as [->|[->| ->]]; reflexivity.
Qed.

Lemma padded_nonempty p : Str.truthy (padded p) = true.
Proof.
  pose proof (padded_last p) as (c & Hc & _). destruct (padded p); [discriminate | reflexivity].
Qed.

Lemma concat_padded_last p its :
  exists c, Str.last_char (String.concat "," (map padded (p :: its))) = Some c /\
            Str.is_white c = false.
Proof.
  revert p. induction its as [|q its IH]; intros p.
  - apply padded_last.
  - destruct (IH q) as (c & Hc & Hw). exists c. split; [|exact Hw].
    change (String.concat "," (map padded (p :: q :: its)))
      with (padded p ++ String "," (String.concat "," (map padded (q :: its)))).
    rewrite last_char_app by reflexivity.
    change (Str.last_char (String "," (String.concat "," (map padded (q :: its)))))
      with (match String.concat "," (map padded (q :: its)) with
            | EmptyString => Some ","%char
            | String _ _ => Str.last_char (String.concat "," (map padded (q :: its)))
            end).
    destruct (String.concat "," (map padded (q :: its))); [discriminate | exact Hc].
Qed.

(** [trim] takes the spaces in front of the first element away and nothing
    else. *)
Lemma trim_padded k it its :
  Str.trim (ttl_string_padded ((k, it) :: its))
  = ttl_string_padded ((O, it) :: its).
Proof.
  unfold Str.trim, ttl_string_padded.
  assert (Hstart : Str.trimStart (String.concat "," (map padded ((k, it) :: its)))
                   = String.concat "," (map padded ((O, it) :: its))).
  { destruct its as [|q its].
    - simpl. unfold padded. simpl fst. simpl snd. rewrite trimStart_spaces.
      apply trimStart_not_white, element_not_white.
    - change (String.concat "," (map padded ((k, it) :: q :: its)))
        with (padded (k, it) ++ String "," (String.concat "," (map padded (q :: its)))).
      change (String.concat "," (map padded ((O, it) :: q :: its)))
        with (padded (O, it) ++ String "," (String.concat "," (map padded (q :: its)))).
      unfold padded at 1 3. simpl fst. simpl snd.
      rewrite string_app_assoc, trimStart_spaces.
      pose proof (element_nonempty it) as Hne. pose proof (element_not_white it) as Hw.
      destruct (element it) as [|c r]; [discriminate|].
      simpl in Hw. apply andb_true_iff in Hw as [Hc _].
      unfold not_white in Hc. simpl. destruct (Str.is_white c); [discriminate | reflexivity]. }
  rewrite Hstart.
  destruct (concat_padded_last (O, it) its) as (c & Hc & Hw).
  exact (trimEnd_last _ c Hc Hw).
Qed.

(** X8. A string of one element or more with commas between them, each element
    some spaces (or none) and then a natural number in decimal digits
    followed by [h], [m] or [s], parses to the sum of the seconds the
    elements stand for when the sum is at most 86400, and throws the range
    error when it is more. *)
Theorem ttl_string_padded_sum its :
  its <> [] ->
  Str.truthy (ttl_string_padded its) = true /\
  parseExpTime (Some (ExpString (ttl_string_padded its)))
  = if (total (map snd its) <=? 86400)%Z then Ok (of_Z (total (map snd its)))
    else Throw (TypeError msg_range).
Proof.
  intros Hne. destruct its as [|[k it] its]; [congruence|].
  assert (Ht : Str.truthy (ttl_string_padded ((k, it) :: its)) = true).
  { unfold ttl_string_padded. simpl map. destruct (map padded its) as [|y ys].
    - apply padded_nonempty.
    - change (String.concat "," (padded (k, it) :: y :: ys))
        with (padded (k, it) ++ String "," (String.concat "," (y :: ys))).
      apply truthy_app, padded_nonempty. }
  split; [exact Ht|].
  unfold parseExpTime. cbn [exp_truthy]. rewrite Ht. cbn [negb].
  rewrite trim_padded. unfold ttl_string_padded.
  rewrite split_concat;
    [|discriminate
     |apply List.Forall_forall; intros x Hx;
      apply in_map_iff in Hx as (p & <- & _); apply padded_not_comma].
  rewrite reduce_padded. cbn [rbind map snd]. rewrite Z.add_0_l.
  unfold lt. rewrite !gt_of_Z.
  pose proof (total_nonneg (it :: map snd its)) as Hpos.
  destruct (Z.leb_spec (total (it :: map snd its)) 86400),
           (Z.leb_spec 0 (total (it :: map snd its)));
    simpl; try reflexivity; lia.
Qed.

(** X9. A TTL string (not the empty one) with an element that does not end in
    [h], [m] or [s], an empty element included, throws the format error,
    whatever the other elements are and whatever they add up to. *)
Theorem missing_unit_throws s :
  Str.truthy s = true ->
  Exists (fun el => unit_suffix el = false) (Str.split "," (Str.trim s)) ->
  parseExpTime (Some (ExpString s)) = Throw (TypeError msg_format).
Proof. exact (ZoicFacts.parseExpTime_bad_suffix s). Qed.

(** *** What the parser returns *)

(** X10. Whatever the option is, a time the parser returns is a finite number
    from 0 to 86400, or it is [NaN]; and it is [NaN] only when the option is
    a string. *)
Theorem parseExpTime_range e n :
  parseExpTime e = Ok n ->
  (exists q, n = Fin q /\ (0 <= q)%Q /\ (q <= inject_Z 86400)%Q) \/
  (n = NaN /\ exists s, e = Some (ExpString s)).
Proof.
  unfold parseExpTime.
  destruct (exp_truthy e) eqn:Ht; cbn [negb].
  2:{ intros H. injection H as <-. left. eexists. split; [reflexivity|].
      split; [discriminate|]. apply Qle_refl. }
  assert (Hcheck : forall m,
    (if gt m (of_Z 86400) || lt m (of_Z 0) then Throw (TypeError msg_range) else Ok m) = Ok n ->
    m = n /\ (n = NaN \/ exists q, n = Fin q /\ (0 <= q)%Q /\ (q <= inject_Z 86400)%Q)).
  { intros m. destruct (gt m (of_Z 86400) || lt m (of_Z 0)) eqn:Hc; [discriminate|].
    intros H. injection H as <-. split; [reflexivity|].
    apply orb_false_iff in Hc as [Hg Hl].
    destruct m as [| | |q]; try discriminate; [auto|]. right.
    exists q. split; [reflexivity|]. unfold lt, gt, of_Z in *.
    apply negb_false_iff in Hg, Hl. apply Qle_bool_iff in Hg, Hl. auto. }
  destruct e as [[s|m]|]; [| |discriminate]; cbn [rbind].
  - destruct (reduce addUnit _ _) as [m|err] eqn:Hred; [|discriminate]. cbn [rbind].
    intros H. apply Hcheck in H as [-> [->|Hfin]]; [right; eauto | left; exact Hfin].
  - intros H. apply Hcheck in H as [-> [->|Hfin]]; [discriminate Ht | left; exact Hfin].
Qed.

(** *** The statements above at concrete strings *)

Lemma ttl_string_padded_sum_witness :
  [(O, (2%N, Hours)); (1%nat, (5%N, Minutes)); (1%nat, (3%N, Seconds))] <> [] /\
  parseExpTime (Some (ExpString "2h, 5m, 3s")) = Ok (of_Z 7503).
Proof.
  split; [discriminate|].
  exact (proj2 (ttl_string_padded_sum
                  [(O, (2%N, Hours)); (1%nat, (5%N, Minutes)); (1%nat, (3%N, Seconds))]
                  ltac:(discriminate))).
Defined.

Lemma missing_unit_throws_witness :
  Str.truthy "25h,5" = true /\
  parseExpTime (Some (ExpString "25h,5")) = Throw (TypeError msg_format).
Proof.
  split; [reflexivity|]. apply missing_unit_throws; [reflexivity|].
  change (Str.split "," (Str.trim "25h,5")) with ["25h"; "5"].
  apply Exists_cons_tl, Exists_cons_hd. reflexivity.
Defined.

Lemma parseExpTime_range_witness :
  parseExpTime (Some (ExpString "2h, 5m, 3s")) = Ok (of_Z 7503) /\
  ((exists q, of_Z 7503 = Fin q /\ (0 <= q)%Q /\ (q <= inject_Z 86400)%Q) \/
   (of_Z 7503 = NaN /\ exists s, Some (ExpString "2h, 5m, 3s") = Some (ExpString s))).
Proof.
  split; [reflexivity|].
  apply (parseExpTime_range (Some (ExpString "2h, 5m, 3s")) (of_Z 7503)). reflexivity.
Defined.

End TtlFacts.

(** * The middleware [use]: properties *)

Module MiddlewareFacts.
Import Zoic JS Middleware.

Local Open Scope string_scope.

(** Reading a property of a truthy value never throws. *)
Lemma prop_truthy v name : truthy v = true -> exists x, prop v name = Ok x.
Proof. destruct v; simpl; try discriminate; eauto. Qed.

Lemma respond_truthy v ctx :
  truthy v = true ->
  exists h b s t,
    prop v "headers" = Ok h /\ prop v "body" = Ok b /\
    prop v "status" = Ok s /\ prop v "type" = Ok t /\
    respond v ctx =
    inl {| pathname := pathname ctx; search := search ctx;
           response := {| headers := h; body := b; status := s; type := t;
                          toDomResponse := toDomResponse (response ctx) |};
           zoicResponse := zoicResponse ctx |}.
Proof.
  intros Hv.
  destruct (prop_truthy v "headers" Hv) as [h Hh].
  destruct (prop_truthy v "body" Hv) as [b Hb].
  destruct (prop_truthy v "status" Hv) as [s Hs].
  destruct (prop_truthy v "type" Hv) as [t Ht].
  exists h, b, s, t. unfold respond. rewrite Hh, Hb, Hs, Ht. auto.
Qed.

Section Engines.

Variables (LRU LFU : Type).
Variable new_LRU : number -> LRU.
Variable new_LFU : number -> LFU.
Variable LRU_get : LRU -> string -> get_call * LRU.
Variable LFU_get : LFU -> string -> get_call * LFU.
Variable LRU_put : LRU -> string -> value -> put_call * LRU.
Variable LFU_put : LFU -> string -> value -> put_call * LFU.

Local Abbreviation cache_get := (cache_get LRU LFU LRU_get LFU_get).
Local Abbreviation cache_put_call := (cache_put_call LRU LFU LRU_put LFU_put).
Local Abbreviation use := (use LRU LFU LRU_get LFU_get).
Local Abbreviation patched_toDomResponse := (patched_toDomResponse LRU LFU LRU_put LFU_put).
Local Abbreviation new_ZoicCache := (new_ZoicCache LRU LFU new_LRU new_LFU).

Lemma use_on_hit self ctx v c' :
  respondOnHit _ _ self = true ->
  cache_get (cache _ _ self) (pathname ctx ++ search ctx) = (GetReturns v, c') ->
  truthy v = true ->
  exists h b s t,
    prop v "headers" = Ok h /\ prop v "body" = Ok b /\
    prop v "status" = Ok s /\ prop v "type" = Ok t /\
    use self ctx =
    (Returned,
     {| pathname := pathname ctx; search := search ctx;
        response := {| headers := h; body := b; status := s; type := t;
                       toDomResponse := toDomResponse (response ctx) |};
        zoicResponse := zoicResponse ctx |},
     with_cache _ _ self c',
     [LogHit h b s]).
Proof using Type.
  intros Hr Hget Hv.
  destruct (respond_truthy v ctx Hv) as (h & b & s & t & Hh & Hb & Hs & Ht & Hresp).
  exists h, b, s, t. repeat (split; [assumption|]).
  unfold Middleware.use. rewrite Hget, Hv, Hr, Hresp. reflexivity.
Qed.

(** The [get] of the engine the cache holds, as [cache_get] calls it. *)
Lemma cache_get_engine (c : engine LRU LFU) key got c' :
  match c with
  | IsLRU _ _ l => exists l', LRU_get l key = (got, l') /\ c' = IsLRU _ _ l'
  | IsLFU _ _ l => exists l', LFU_get l key = (got, l') /\ c' = IsLFU _ _ l'
  end ->
  cache_get c key = (got, c').
Proof using Type.
  unfold Middleware.cache_get. destruct c as [l|l];
    intros (l' & -> & ->); reflexivity.
Qed.

(** X11. On a hit, for a cache with [respondOnHit] true, when the [get] of
    the engine returns a truthy value whose [status] is truthy: no read of
    the value throws; [use] returns without calling [next]; the four
    response properties are the ones read off the value; the hit is logged;
    nothing else in the context changes, and the cache keeps the engine as
    [get] left it. *)
Theorem use_hit_replays self ctx v c' :
  respondOnHit _ _ self = true ->
  match cache _ _ self with
  | IsLRU _ _ l =>
      exists l', LRU_get l (pathname ctx ++ search ctx) = (GetReturns v, l') /\
                 c' = IsLRU _ _ l'
  | IsLFU _ _ l =>
      exists l', LFU_get l (pathname ctx ++ search ctx) = (GetReturns v, l') /\
                 c' = IsLFU _ _ l'
  end ->
  truthy v = true ->
  (forall s, prop v "status" = Ok s -> truthy s = true) ->
  exists h b s t ctx',
    prop v "headers" = Ok h /\ prop v "body" = Ok b /\
    prop v "status" = Ok s /\ prop v "type" = Ok t /\
    use self ctx
    = (Returned, ctx',
       {| cache := c'; expire := expire _ _ self; respondOnHit := true |},
       [LogHit h b s]) /\
    headers (response ctx') = h /\ body (response ctx') = b /\
    status (response ctx') = s /\ type (response ctx') = t /\
    toDomResponse (response ctx') = toDomResponse (response ctx) /\
    pathname ctx' = pathname ctx /\ search ctx' = search ctx /\
    zoicResponse ctx' = zoicResponse ctx.
Proof using Type.
  intros Hr Hengine Hv _.
  apply cache_get_engine in Hengine.
  destruct (use_on_hit self ctx v c' Hr Hengine Hv)
    as (h & b & s & t & Hh & Hb & Hs & Ht & Hrun).
  exists h, b, s, t. eexists. repeat (split; [eassumption|]).
  split; [rewrite Hrun; unfold with_cache; rewrite Hr; reflexivity|].
  cbn. repeat split.
Qed.

(** X12. A hit on a truthy value that is no object (a number, a string,
    [true]), for a cache with [respondOnHit] true: [use] returns without
    calling [next], and the headers, the body and the type of the response
    all become [undefined]. *)
Theorem use_hit_primitive self ctx v c' :
  respondOnHit _ _ self = true ->
  match cache _ _ self with
  | IsLRU _ _ l =>
      exists l', LRU_get l (pathname ctx ++ search ctx) = (GetReturns v, l') /\
                 c' = IsLRU _ _ l'
  | IsLFU _ _ l =>
      exists l', LFU_get l (pathname ctx ++ search ctx) = (GetReturns v, l') /\
                 c' = IsLFU _ _ l'
  end ->
  truthy v = true ->
  (forall fields, v <> VObject fields) ->
  exists ctx' log,
    use self ctx
    = (Returned, ctx',
       {| cache := c'; expire := expire _ _ self; respondOnHit := true |}, log) /\
    headers (response ctx') = VUndefined /\ body (response ctx') = VUndefined /\
    type (response ctx') = VUndefined.
Proof using Type.
  intros Hr Hengine Hv Hprim.
  apply cache_get_engine in Hengine.
  destruct (use_on_hit self ctx v c' Hr Hengine Hv)
    as (h & b & s & t & Hh & Hb & Hs & Ht & Hrun).
  eexists _, _. split; [rewrite Hrun; unfold with_cache; rewrite Hr; reflexivity|].
  cbn. destruct v; simpl in *; try discriminate;
    try (injection Hh as <-; injection Hb as <-; injection Ht as <-; auto).
  exfalso. eapply Hprim. reflexivity.
Qed.

(** X13. For a cache the constructor returned, whatever the options were and
    whatever engine [c] it holds by now, [use] calls the [get] of that
    engine with the key [pathname + search] and keeps the engine as the call
    left it; it never writes [ctx.state.zoicResponse].  It returns [next()]
    exactly when [get] returned a falsy value, and then [toDomResponse] is
    the caching patch while the four response properties are what they
    were.  When [get] throws, [use] returns without [next], the status is
    400, the body is the text of the error, which is logged, and
    [toDomResponse] is not patched. *)
Theorem use_of_constructed opts z c ctx got c' :
  new_ZoicCache opts = Ok z ->
  match c with
  | IsLRU _ _ l =>
      exists l', LRU_get l (pathname ctx ++ search ctx) = (got, l') /\ c' = IsLRU _ _ l'
  | IsLFU _ _ l =>
      exists l', LFU_get l (pathname ctx ++ search ctx) = (got, l') /\ c' = IsLFU _ _ l'
  end ->
  exists e ctx' log,
    use {| cache := c; expire := expire _ _ z; respondOnHit := respondOnHit _ _ z |} ctx
    = (e, ctx',
       {| cache := c'; expire := expire _ _ z; respondOnHit := respondOnHit _ _ z |},
       log) /\
    pathname ctx' = pathname ctx /\ search ctx' = search ctx /\
    zoicResponse ctx' = zoicResponse ctx /\
    (e = CalledNext <-> exists v, got = GetReturns v /\ truthy v = false) /\
    (e = CalledNext ->
       toDomResponse (response ctx') = Patched /\
       headers (response ctx') = headers (response ctx) /\
       body (response ctx') = body (response ctx) /\
       status (response ctx') = status (response ctx) /\
       type (response ctx') = type (response ctx) /\
       log = []) /\
    (forall err, got = GetThrows err ->
       e = Returned /\
       status (response ctx') = VNumber (of_Z 400) /\
       body (response ctx') = VString ("error in ZoicCache.use: " ++ err) /\
       headers (response ctx') = headers (response ctx) /\
       type (response ctx') = type (response ctx) /\
       toDomResponse (response ctx') = toDomResponse (response ctx) /\
       log = [LogError ("error in ZoicCache.use: " ++ err)]).
Proof using Type.
  intros Hnew Hengine.
  apply cache_get_engine in Hengine.
  set (self := {| cache := c; expire := expire _ _ z;
                  respondOnHit := respondOnHit _ _ z |}).
  assert (Hr : respondOnHit _ _ self = true).
  { unfold self. cbn [respondOnHit].
    apply ZoicFacts.new_ZoicCache_ok in Hnew as (_ & _ & ->).
    destruct (opt_chain opts opt_respondOnHit) as [[|]|]; reflexivity. }
  destruct got as [v|err].
  - destruct (truthy v) eqn:Hv.
    + destruct (use_on_hit self ctx v c' Hr Hengine Hv)
        as (h & b & s & t & _ & _ & _ & _ & Hrun).
      eexists _, _, _. split; [exact Hrun|]. cbn.
      repeat (split; [reflexivity|]).
      split; [split; [discriminate | intros (v' & Hv' & Hf); congruence]|].
      split; discriminate.
    + eexists _, _, _. split.
      { unfold Middleware.use. cbn [cache self]. rewrite Hengine, Hv. reflexivity. }
      cbn. repeat (split; [reflexivity|]).
      split; [split; [eauto | reflexivity]|].
      split; [intros _; repeat split | discriminate].
  - eexists _, _, _. split.
    { unfold Middleware.use. cbn [cache self]. rewrite Hengine. reflexivity. }
    cbn. repeat (split; [reflexivity|]).
    split; [split; [discriminate | intros (v' & Hv' & _); discriminate]|].
    split; [discriminate|].
    intros err' Herr. injection Herr as <-. repeat split.
Qed.

(** X14. The patch, then [use] on a request with the same path and query: if
    the engine gives back under a key what was put under it, a response that
    went through the patch is what the next [use] answers with (for a cache
    with [respondOnHit] true), the four properties being those that were
    sent. *)
Theorem patch_then_use_replays self ctx s self1 ctx2 :
  (forall c k v o c1, cache_put_call c k v = (PutReturns o, c1) ->
                      fst (cache_get c1 k) = GetReturns v) ->
  respondOnHit _ _ self = true ->
  patched_toDomResponse self ctx = (Normal s, self1) ->
  pathname ctx2 = pathname ctx -> search ctx2 = search ctx ->
  exists ctx3 self3 log,
    use self1 ctx2 = (Returned, ctx3, self3, log) /\
    headers (response ctx3) = headers (response ctx) /\
    body (response ctx3) = body (response ctx) /\
    status (response ctx3) = status (response ctx) /\
    type (response ctx3) = type (response ctx) /\
    sent_headers s = headers (response ctx) /\ sent_body s = body (response ctx) /\
    sent_status s = status (response ctx) /\ sent_type s = type (response ctx).
Proof using Type.
  intros Hlaw Hr Hpatch Hp Hs.
  unfold Middleware.patched_toDomResponse in Hpatch.
  destruct (cache_put_call _ _ _) as [done c1] eqn:Hput.
  destruct done as [o|err]; [|discriminate].
  injection Hpatch as <- <-.
  pose proof (Hlaw _ _ _ _ _ Hput) as Hget.
  destruct (cache_get c1 (pathname ctx ++ search ctx)) as [got c2] eqn:Hget'.
  cbn [fst] in Hget. subst got.
  assert (Hr1 : respondOnHit _ _ (with_cache _ _ self c1) = true) by exact Hr.
  assert (Hget2 : cache_get (cache _ _ (with_cache _ _ self c1))
                            (pathname ctx2 ++ search ctx2)
                  = (GetReturns (cached_response (response ctx)), c2)).
  { rewrite Hp, Hs. exact Hget'. }
  destruct (use_on_hit _ ctx2 _ c2 Hr1 Hget2 eq_refl)
    as (h & b & st & t & Hh & Hb & Hst & Ht & Hrun).
  cbn in Hh, Hb, Hst, Ht.
  injection Hh as <-. injection Hb as <-. injection Hst as <-. injection Ht as <-.
  eexists _, _, _. split; [exact Hrun|]. cbn. repeat split.
Qed.

End Engines.

(** *** The statements above on the engine of pairs *)

Local Abbreviation pairs := (list (string * value)).

Lemma pairs_get_after_put (c : engine pairs pairs) k v o c1 :
  cache_put_call pairs pairs pairs_put pairs_put c k v = (PutReturns o, c1) ->
  fst (cache_get pairs pairs pairs_get pairs_get c1 k) = GetReturns v.
Proof.
  destruct c as [l|l]; simpl; intros H; injection H as _ <-; simpl;
    rewrite String.eqb_refl; reflexivity.
Qed.

Lemma use_hit_replays_witness :
  let self := pairs_cache [("/dbRead?id=1", cached_response (response answered))] in
  exists ctx' self' log,
    use pairs pairs pairs_get pairs_get self incoming = (Returned, ctx', self', log) /\
    body (response ctx') = VString "woww cool" /\
    status (response ctx') = VNumber (of_Z 200).
Proof.
  intros self.
  destruct (use_hit_replays pairs pairs pairs_get pairs_get self incoming
              (cached_response (response answered)) (cache _ _ self) eq_refl)
    as (h & b & s & t & ctx' & _ & Hb & Hs & _ & Hrun & _ & Hb' & Hs' & _).
  - eexists. split; reflexivity.
  - reflexivity.
  - intros s Hs. injection Hs as <-. reflexivity.
  - injection Hb as <-. injection Hs as <-.
    eexists _, _, _. split; [exact Hrun|]. split; assumption.
Defined.

Lemma use_hit_primitive_witness :
  let self := pairs_cache [("/dbRead?id=1", VNumber (of_Z 5))] in
  exists ctx' self' log,
    use pairs pairs pairs_get pairs_get self incoming = (Returned, ctx', self', log) /\
    headers (response ctx') = VUndefined /\ body (response ctx') = VUndefined.
Proof.
  intros self.
  destruct (use_hit_primitive pairs pairs pairs_get pairs_get self incoming
              (VNumber (of_Z 5)) (cache _ _ self) eq_refl)
    as (ctx' & log & Hrun & Hh & Hb & _).
  - eexists. split; reflexivity.
  - reflexivity.
  - intros fields. discriminate.
  - eexists _, _, _. split; [exact Hrun|]. split; assumption.
Defined.

Lemma use_of_constructed_witness :
  let z := {| cache := IsLFU pairs pairs []; expire := of_Z 7503; respondOnHit := true |} in
  new_ZoicCache pairs pairs (fun _ => []) (fun _ => []) opts_false = Ok z /\
  exists ctx' self' log,
    use pairs pairs pairs_get pairs_get z incoming = (CalledNext, ctx', self', log) /\
    toDomResponse (response incoming) = Original /\
    toDomResponse (response ctx') = Patched.
Proof.
  intros z. split; [reflexivity|].
  destruct (use_of_constructed pairs pairs (fun _ => []) (fun _ => [])
              pairs_get pairs_get opts_false z (cache _ _ z) incoming
              (GetReturns VUndefined) (cache _ _ z) eq_refl)
    as (e & ctx' & log & Hrun & _ & _ & _ & Hnext & Hpatch & _).
  - eexists. split; reflexivity.
  - assert (He : e = CalledNext) by (apply Hnext; eexists; split; reflexivity).
    subst e. eexists _, _, _. split; [exact Hrun|]. split; [reflexivity|].
    apply Hpatch. reflexivity.
Defined.

Lemma patch_then_use_replays_witness :
  exists s self1 ctx3 self3 log,
    patched_toDomResponse pairs pairs pairs_put pairs_put (pairs_cache []) answered
    = (Normal s, self1) /\
    use pairs pairs pairs_get pairs_get self1 incoming = (Returned, ctx3, self3, log) /\
    body (response ctx3) = VString "woww cool" /\
    sent_body s = VString "woww cool".
Proof.
  eexists _, _.
  destruct (patch_then_use_replays pairs pairs pairs_get pairs_get pairs_put pairs_put
              (pairs_cache []) answered _ _ incoming
              pairs_get_after_put eq_refl eq_refl eq_refl eq_refl)
    as (ctx3 & self3 & log & Hrun & _ & Hb & _ & _ & _ & Hsb & _).
  exists ctx3, self3, log. split; [reflexivity|]. split; [exact Hrun|].
  split; [exact Hb | exact Hsb].
Defined.

End MiddlewareFacts.

(** * The middleware [put]: the other codes *)

Module PutFacts.
Import Zoic.

Local Open Scope string_scope.

Section Facade.

Variables (V LRU LFU : Type).
Variable LRU_put : LRU -> string -> V -> put_outcome * LRU.
Variable LFU_put : LFU -> string -> V -> put_outcome * LFU.

Local Abbreviation put := (put V LRU LFU LRU_put LFU_put).
Local Abbreviation cache_put := (cache_put V LRU LFU LRU_put LFU_put).

(** X15. When [cache.put] resolves to a number that is neither 0 nor -1 (1,
    [NaN], an infinity, ...), [put] returns without calling [next] and
    without writing anything: the context is the one it was given, and only
    the engine has changed. *)
Theorem put_other_code_is_silent self ctx n c' :
  cache_put (cache _ _ self) (pathname _ ctx ++ search _ ctx) (state_zoic _ ctx)
  = (Resolved n, c') ->
  strict_eq n (of_Z 0) = false ->
  strict_eq n (of_Z (-1)) = false ->
  put self ctx
  = (Returned, ctx,
     {| cache := c'; expire := expire _ _ self; respondOnHit := respondOnHit _ _ self |}).
Proof using Type.
  intros Hput H0 H1. unfold Zoic.put. rewrite Hput, H0, H1. reflexivity.
Qed.

End Facade.

Lemma put_other_code_is_silent_witness :
  let odd_put := fun (_ : unit) (_ : string) (_ : Z) => (Resolved (of_Z 1), tt) in
  let self := {| cache := IsLRU unit unit tt; expire := of_Z 86400; respondOnHit := true |} in
  let ctx := {| pathname := "/dbRead"; search := "?id=1"; state_zoic := 7%Z;
                response_body := Body Z 0%Z |} in
  put Z unit unit odd_put odd_put self ctx = (Returned, ctx, self).
Proof.
  intros odd_put self ctx.
  exact (put_other_code_is_silent Z unit unit odd_put odd_put self ctx (of_Z 1)
           (IsLRU unit unit tt) eq_refl eq_refl eq_refl).
Defined.

End PutFacts.
